(** * MessageStore: a bounded, insertion-ordered cache of messages

    Shallow embedding of [src/stores/MessageStore.js] (discord.js).

    A [MessageStore] is a JavaScript [Map] from snowflakes to [Message]
    objects whose [set] method is overridden to enforce
    [client.options.messageCacheMaxSize], together with the asynchronous
    [fetch] / [fetchPinned] methods that fill it from the REST API. *)

From Stdlib Require Import ZArith Lia.
From stdpp Require Import base list strings.

Local Open Scope Z_scope.

(** A snowflake is a string (the identifiers of the remote service). *)
Definition Snowflake := string.

(** ** The underlying container: a JavaScript [Map]

    [Collection] extends [Map]; a [Map] iterates in insertion order, so it is
    embedded as an association list, oldest entry first.  [set] on a key that
    is present replaces the value where it stands, [set] on a new key appends,
    [delete] removes the key and is silent when it is absent. *)
Module Collection.
Section Ops.
Context {V : Type}.

Definition t := list (Snowflake * V).

Definition empty : t := [].

Definition keys (self : t) : list Snowflake := self.*1.

Definition size (self : t) : Z := Z.of_nat (length self).

Fixpoint get (key : Snowflake) (self : t) : option V :=
  match self with
  | [] => None
  | (k, v) :: rest => if decide (k = key) then Some v else get key rest
  end.

Definition has (key : Snowflake) (self : t) : bool :=
  bool_decide (is_Some (get key self)).

Fixpoint set (key : Snowflake) (value : V) (self : t) : t :=
  match self with
  | [] => [(key, value)]
  | (k, v) :: rest =>
      if decide (k = key) then (k, value) :: rest
      else (k, v) :: set key value rest
  end.

Fixpoint delete (key : Snowflake) (self : t) : t :=
  match self with
  | [] => []
  | (k, v) :: rest =>
      if decide (k = key) then delete key rest else (k, v) :: delete key rest
  end.

(** Modelled from the spec: [Collection.firstKey], which util/Collection.js
    defines and MessageStore.js only calls: "returns the oldest surviving
    key", absent on an empty collection. *)
Definition firstKey (self : t) : option Snowflake := head (keys self).

End Ops.
Arguments t : clear implicits.
End Collection.

(** ** [MessageStore.set]: the capacity policy *)
Section CachePolicy.
Context {V : Type}.

(** [this.client.options.messageCacheMaxSize] *)
Variable messageCacheMaxSize : Z.

(** [this.delete(this.firstKey())]: on an empty map [firstKey()] is
    [undefined], which is the key of no entry. *)
Definition delete_firstKey (self : Collection.t V) : Collection.t V :=
  match Collection.firstKey self with
  | Some k => Collection.delete k self
  | None => self
  end.

Definition set (key : Snowflake) (value : V) (self : Collection.t V)
  : Collection.t V :=
  let maxSize := messageCacheMaxSize in
  if bool_decide (maxSize = 0) then self
  else
    let self :=
      if bool_decide (Collection.size self >= maxSize) && bool_decide (maxSize > 0)
      then delete_firstKey self
      else self in
    Collection.set key value self.

(** A sequence of [set] calls, oldest call first. *)
Definition set_all (calls : list (Snowflake * V)) (self : Collection.t V)
  : Collection.t V :=
  foldl (fun acc kv => set kv.1 kv.2 acc) self calls.

End CachePolicy.

(** ** JavaScript values reaching [fetch], [resolve] and [resolveID] *)

(** [ChannelLogsQueryOptions]; every property is optional. *)
Record ChannelLogsQueryOptions := {
  limit : option Z;
  before : option Snowflake;
  after : option Snowflake;
  around : option Snowflake;
}.

(** [{}] *)
Definition no_options : ChannelLogsQueryOptions :=
  {| limit := None; before := None; after := None; around := None |}.

(** Objects live in a heap and are named by their address: two references
    denote the same [Message] object exactly when they are equal. *)
Definition ref := nat.

Inductive Value :=
| VUndefined
| VString (s : string)
| VNumber (n : Z)
| VOptions (o : ChannelLogsQueryOptions)
| VMessage (m : ref).

Definition typeof (v : Value) : string :=
  match v with
  | VUndefined => "undefined"
  | VString _ => "string"
  | VNumber _ => "number"
  | VOptions _ => "object"
  | VMessage _ => "object"
  end.

(** The glossary's notion of identifier: "unique stable string/number naming
    an entity".  Used only to state the dispatch claim in the spec's words. *)
Definition spec_is_identifier (v : Value) : bool :=
  match v with
  | VString _ | VNumber _ => true
  | _ => false
  end.

(** A default parameter [options = {}]: the default applies to [undefined]
    only. *)
Definition default_options (options : Value) : Value :=
  match options with
  | VUndefined => VOptions no_options
  | _ => options
  end.

(** ** The REST collaborator *)

(** The three routes the store reads:
    [channels[id].messages[messageID].get()],
    [channels[id].messages.get({ query })] and [channels[id].pins.get()]. *)
Inductive Request :=
| GetMessage (channel_id messageID : Snowflake)
| GetMessages (channel_id : Snowflake) (query : Value)
| GetPins (channel_id : Snowflake).

Inductive Path := SingleItem | Batch | Pinned.

Definition path_of (r : Request) : Path :=
  match r with
  | GetMessage _ _ => SingleItem
  | GetMessages _ _ => Batch
  | GetPins _ => Pinned
  end.

Record Channel := { channel_id : Snowflake }.

Section Store.
(** Raw API records carry an [id] and data the store never inspects; what a
    [Message] holds besides its [id] is opaque as well. *)
Context {Payload Content Error : Type}.

Record RawMessage := { raw_id : Snowflake; raw_payload : Payload }.

Record Message := { msg_id : Snowflake; msg_content : Content }.

(** The field parsing of structures/Message.js, which MessageStore.js only
    calls: how the constructor fills the content of a new message from a raw
    record and its channel, and how [_patch] updates it from a raw record. *)
Variable construct : Channel -> RawMessage -> Content.
Variable patch : Content -> RawMessage -> Content.

(** Modelled from the spec: [new Message(client, data, channel)], of
    structures/Message.js: "given a raw record and an owning context,
    produces ... an Entity", whose [id] is the record's identifier. *)
Definition Message_new (data : RawMessage) (extras : Channel) : Message :=
  {| msg_id := raw_id data; msg_content := construct extras data |}.

(** Modelled from the spec: [Message._patch(data)], of structures/Message.js:
    "given a raw record ..., updates an Entity"; the [id] of an entity is
    "unique, stable", the content is what changes. *)
Definition Message_patch (m : Message) (data : RawMessage) : Message :=
  {| msg_id := msg_id m; msg_content := patch (msg_content m) data |}.

(** The store ([this]) and the heap of [Message] objects it shares with its
    callers. *)
Record World := { heap : list Message; cache : Collection.t ref }.

Definition empty_store (h : list Message) : World :=
  {| heap := h; cache := Collection.empty |}.

(** What the transport answers to a request: a rejection, or the parsed
    body, one record for a single message and an ordered list otherwise. *)
Definition Reply (r : Request) : Type :=
  match r with
  | GetMessage _ _ => RawMessage
  | GetMessages _ _ => list RawMessage
  | GetPins _ => list RawMessage
  end.

Definition Api := forall r : Request, Error + Reply r.

(** *** Asynchronous methods

    A method runs on the current world and settles: it fulfils with a value
    or rejects with an error, leaves a world behind and has issued some
    requests.  There is no [try]/[catch] in the file, so a rejection ends the
    method that awaits it. *)
Inductive Outcome (A : Type) :=
| Fulfilled (a : A)
| Rejected (e : Error).
Arguments Fulfilled {A} a.
Arguments Rejected {A} e.

Record Run (A : Type) := {
  outcome : Outcome A;
  world : World;
  requests : list Request;
}.
Arguments outcome {A} _.
Arguments world {A} _.
Arguments requests {A} _.

Definition M (A : Type) : Type := World -> Run A.

#[global] Instance M_ret : MRet M := fun A a w =>
  {| outcome := Fulfilled a; world := w; requests := [] |}.

#[global] Instance M_bind : MBind M := fun A B f m w =>
  let r := m w in
  match outcome r with
  | Fulfilled a =>
      let r' := f a (world r) in
      {| outcome := outcome r'; world := world r';
         requests := requests r ++ requests r' |}
  | Rejected e =>
      {| outcome := Rejected e; world := world r; requests := requests r |}
  end.

#[global] Instance M_fmap : FMap M := fun A B f m => a ← m; mret (f a).

(** [await api.<route>.get()] *)
Definition await (api : Api) (r : Request) : M (Reply r) := fun w =>
  {| outcome := match api r with inl e => Rejected e | inr d => Fulfilled d end;
     world := w; requests := [r] |}.

Definition read_cache {A} (f : Collection.t ref -> A) : M A := fun w =>
  {| outcome := Fulfilled (f (cache w)); world := w; requests := [] |}.

Definition write_cache (f : Collection.t ref -> Collection.t ref) : M unit :=
  fun w =>
  {| outcome := Fulfilled tt;
     world := {| heap := heap w; cache := f (cache w) |}; requests := [] |}.

Definition read_heap {A} (f : list Message -> A) : M A := fun w =>
  {| outcome := Fulfilled (f (heap w)); world := w; requests := [] |}.

(** [new Message(...)]: a fresh object at the next free address. *)
Definition new (m : Message) : M ref := fun w =>
  {| outcome := Fulfilled (length (heap w));
     world := {| heap := heap w ++ [m]; cache := cache w |}; requests := [] |}.

(** [existing._patch(data)]: the object at [existing] changes where it is. *)
Definition _patch (existing : ref) (data : RawMessage) : M unit := fun w =>
  {| outcome := Fulfilled tt;
     world := {| heap := alter (fun m => Message_patch m data) existing (heap w);
                 cache := cache w |};
     requests := [] |}.

(** *** The store's methods *)

Variable messageCacheMaxSize : Z.
Variable channel : Channel.

Definition this_get (key : Snowflake) : M (option ref) :=
  read_cache (Collection.get key).

Definition this_delete (key : Snowflake) : M unit :=
  write_cache (Collection.delete key).

(** [this.set] dispatches to [MessageStore.set]. *)
Definition this_set (key : Snowflake) (value : ref) : M unit :=
  write_cache (set messageCacheMaxSize key value).

(** Modelled from the spec: [DataStore.add], of stores/DataStore.js, which
    MessageStore.js reaches through [super.add].  "An entity enters the
    cache via [set] during an [add] (insert or construct-and-insert)"; a
    record whose identifier is cached is not "resurrected": the cached object
    is returned as it is, and only an overwriting fetch refreshes it.  The
    spec does not describe the [cache] argument; it is taken to switch the
    insertion off when it is [false], and no call in MessageStore.js passes
    it. *)
Definition DataStore_add (data : RawMessage) (cache : option bool)
  (extras : Channel) : M ref :=
  existing ← this_get (raw_id data);
  match existing with
  | Some e => mret e
  | None =>
      entry ← new (Message_new data extras);
      (if default true cache then this_set (raw_id data) entry else mret tt);;
      mret entry
  end.

Definition add (data : RawMessage) (cache : option bool) : M ref :=
  DataStore_add data cache channel.

(** [for (const message of data) messages.set(message.id, this.add(message))] *)
Fixpoint for_of (data : list RawMessage) (messages : Collection.t ref)
  : M (Collection.t ref) :=
  match data with
  | [] => mret messages
  | message :: rest =>
      m ← add message None;
      for_of rest (Collection.set (raw_id message) m messages)
  end.

Section Methods.
(** [this.client.api] *)
Variable api : Api.

Definition fetchPinned : M (Collection.t ref) :=
  data ← await api (GetPins (channel_id channel));
  for_of data Collection.empty.

Definition _fetchId (messageID : Snowflake) (overwrite : bool) : M ref :=
  existing ← this_get messageID;
  data ← await api (GetMessage (channel_id channel) messageID);
  match existing with
  | Some e => if overwrite then _patch e data else mret tt
  | None => mret tt
  end;;
  add data None.

Definition _fetchMany (options : Value) : M (Collection.t ref) :=
  let options := default_options options in
  data ← await api (GetMessages (channel_id channel) options);
  for_of data Collection.empty.

(** [fetch] resolves to a [Message] or to a [Collection] of them. *)
Inductive Fetched :=
| OneMessage (m : ref)
| Messages (c : Collection.t ref).

(** [typeof message === 'string'] holds of [VString] alone.  [overwrite]
    defaults to [false]; [_fetchMany] declares the one parameter [options], so
    the second argument it is handed binds to nothing. *)
Definition fetch (message : Value) (overwrite : option bool) : M Fetched :=
  let overwrite := default false overwrite in
  match message with
  | VString messageID => OneMessage <$> _fetchId messageID overwrite
  | _ => Messages <$> _fetchMany message
  end.

(** Modelled from the spec: [resolve], inherited from [DataStore]
    (stores/DataStore.js; MessageStore.js only documents it).  "If [input] is
    already an Entity, return it; if it is an identifier, look it up in the
    cache; otherwise absent." *)
Definition resolve (input : Value) : M (option ref) :=
  match input with
  | VMessage m => mret (Some m)
  | VString key => this_get key
  | _ => mret None
  end.

(** Modelled from the spec: [resolveID], inherited from [DataStore] as well.
    "Symmetric, returning the identifier form", "returns absent for
    uncached": the [id] of a message, the identifier itself when it is
    cached, and nothing otherwise. *)
Definition resolveID (input : Value) : M (option Snowflake) :=
  match input with
  | VMessage m => read_heap (fun h => msg_id <$> h !! m)
  | VString key => found ← this_get key; mret (found ≫= fun _ => Some key)
  | _ => mret None
  end.

End Methods.

(** *** Histories of a store

    Everything a holder of the store can do to it, each call running against
    whatever the transport answers at that moment. *)
Inductive Call :=
| CallSet (key : Snowflake) (value : ref)
| CallDelete (key : Snowflake)
| CallAdd (data : RawMessage) (cache : option bool)
| CallFetch (message : Value) (overwrite : option bool)
| CallFetchPinned
| CallResolve (input : Value)
| CallResolveID (input : Value).

Definition call (api : Api) (c : Call) (w : World) : World :=
  match c with
  | CallSet key value => world (this_set key value w)
  | CallDelete key => world (this_delete key w)
  | CallAdd data cache => world (add data cache w)
  | CallFetch message overwrite => world (fetch api message overwrite w)
  | CallFetchPinned => world (fetchPinned api w)
  | CallResolve input => world (resolve input w)
  | CallResolveID input => world (resolveID input w)
  end.

Definition replay (history : list (Api * Call)) (w : World) : World :=
  foldl (fun w ac => call ac.1 ac.2 w) w history.

(** The fetching entry points, to speak about all of them at once. *)
Inductive FetchCall :=
| Fetch (message : Value) (overwrite : option bool)
| FetchPinned.

Definition run_fetch (api : Api) (c : FetchCall) : M Fetched :=
  match c with
  | Fetch message overwrite => fetch api message overwrite
  | FetchPinned => Messages <$> fetchPinned api
  end.

(** The route each entry point reads. *)
Definition route (c : FetchCall) : Request :=
  match c with
  | Fetch (VString messageID) _ => GetMessage (channel_id channel) messageID
  | Fetch options _ => GetMessages (channel_id channel) (default_options options)
  | FetchPinned => GetPins (channel_id channel)
  end.

(** The route a run went through, read off its first request. *)
Definition taken_path {A} (r : Run A) : option Path :=
  path_of <$> head (requests r).

End Store.

Arguments Fulfilled {Error A} a.
Arguments Rejected {Error A} e.
Arguments Build_Run {Content Error A} _ _ _.
Arguments outcome {Content Error A} _.
Arguments world {Content Error A} _.
Arguments requests {Content Error A} _.

(** ** What a batch does to the cache, on keys alone

    The spec's account of a batch fetch, kept apart from the code above to
    compare the two: "for each record in the response, in the order
    received, insert into the cache", where an entity "enters the cache via
    [set] during an [add]" unless it is cached already, and [set] is a
    "no-op" when the maximum is 0 and otherwise will "evict the single oldest
    entry" of a full cache and append the new key. *)
Definition spec_add_key (maxSize : Z) (keys : list Snowflake) (id : Snowflake)
  : list Snowflake :=
  if decide (id ∈ keys) then keys
  else if bool_decide (maxSize = 0) then keys
  else
    (if bool_decide (Z.of_nat (length keys) >= maxSize) && bool_decide (maxSize > 0)
     then drop 1 keys else keys) ++ [id].

Definition spec_keys_after (maxSize : Z) (keys ids : list Snowflake)
  : list Snowflake :=
  foldl (spec_add_key maxSize) keys ids.

(** ** A small instance

    Records and messages whose opaque part is a string: constructing a
    message keeps the record's text and patching replaces it with the fresh
    one.  Errors are strings as well. *)
Module Demo.

Definition construct (_ : Channel) (data : @RawMessage string) : string :=
  raw_payload data.

Definition patch (_ : string) (data : @RawMessage string) : string :=
  raw_payload data.

Definition general : Channel := {| channel_id := "general" |}.

Definition record (id text : string) : @RawMessage string :=
  {| raw_id := id; raw_payload := text |}.

(** A transport that serves one message under every identifier asked for,
    the same three records to every query, and no pins: that route fails. *)
Definition api : @Api string string := fun r =>
  match r with
  | GetMessage _ messageID => inr (record messageID "fresh")
  | GetMessages _ _ => inr [record "m3" "c"; record "m2" "b"; record "m1" "a"]
  | GetPins _ => inl "503"
  end.

Definition stale : @Message string := {| msg_id := "A"; msg_content := "stale" |}.

(** A store holding the one message ["A"], at address 0. *)
Definition holding_A : @World string :=
  {| heap := [stale]; cache := [("A", 0%nat)] |}.

(** A transport whose pins route serves the records of its messages
    route. *)
Definition pins_api : @Api string string := fun r =>
  match r with
  | GetMessage _ messageID => inr (record messageID "fresh")
  | GetMessages _ _ => inr [record "m3" "c"; record "m2" "b"; record "m1" "a"]
  | GetPins _ => inr [record "m3" "c"; record "m2" "b"; record "m1" "a"]
  end.

Definition message (id text : string) : @Message string :=
  {| msg_id := id; msg_content := text |}.

(** Two full stores of capacity 3: one holds none of the records the
    messages route serves, the other holds ["m3"] as its oldest entry. *)
Definition full_xyz : @World string :=
  {| heap := [message "x" "1"; message "y" "2"; message "z" "3"];
     cache := [("x", 0%nat); ("y", 1%nat); ("z", 2%nat)] |}.

Definition full_m3xy : @World string :=
  {| heap := [message "m3" "old"; message "x" "1"; message "y" "2"];
     cache := [("m3", 0%nat); ("x", 1%nat); ("y", 2%nat)] |}.

(** A transport whose messages route repeats an identifier. *)
Definition repeating_api : @Api string string := fun r =>
  match r with
  | GetMessage _ messageID => inr (record messageID "fresh")
  | GetMessages _ _ => inr [record "a" "1"; record "b" "2"; record "a" "3"]
  | GetPins _ => inl "503"
  end.

End Demo.

(** * Properties *)

(** ** The container *)
Section CollectionFacts.
Context {V : Type}.
Implicit Types (self : Collection.t V) (key : Snowflake) (value : V).

Lemma size_nonneg self : 0 <= Collection.size self.
Proof. unfold Collection.size. lia. Qed.

Lemma get_None_keys key self :
  Collection.get key self = None <-> key ∉ Collection.keys self.
Proof.
  induction self as [|[k v] rest IH]; simpl.
  - split; [intros _; apply not_elem_of_nil | done].
  - rewrite not_elem_of_cons. destruct (decide (k = key)) as [->|Hne].
    + split; [done | intros [? _]; done].
    + rewrite IH. split; [intros ?; split; [congruence | done] | intros [_ ?]; done].
Qed.

Lemma get_Some_keys key self :
  is_Some (Collection.get key self) <-> key ∈ Collection.keys self.
Proof.
  rewrite <- not_eq_None_Some, get_None_keys.
  destruct (decide (key ∈ Collection.keys self)); tauto.
Qed.

Lemma set_fresh key value self :
  key ∉ Collection.keys self ->
  Collection.set key value self = self ++ [(key, value)].
Proof.
  induction self as [|[k v] rest IH]; simpl; [done|].
  rewrite not_elem_of_cons. intros [Hne Hrest].
  destruct (decide (k = key)); [congruence|]. by rewrite IH.
Qed.

Lemma keys_set_present key value self :
  key ∈ Collection.keys self ->
  Collection.keys (Collection.set key value self) = Collection.keys self.
Proof.
  induction self as [|[k v] rest IH]; simpl.
  - intros H. by apply elem_of_nil in H.
  - intros H. destruct (decide (k = key)) as [->|Hne]; [done|].
    apply elem_of_cons in H as [->|H]; [done|].
    change (k :: Collection.keys (Collection.set key value rest)
            = k :: Collection.keys rest).
    f_equal. by apply IH.
Qed.

Lemma get_set_eq key value self :
  Collection.get key (Collection.set key value self) = Some value.
Proof.
  induction self as [|[k v] rest IH]; simpl.
  - by rewrite decide_True.
  - destruct (decide (k = key)) as [->|Hne]; simpl.
    + by rewrite decide_True.
    + by rewrite decide_False.
Qed.

Lemma get_set_ne key key' value self :
  key <> key' ->
  Collection.get key' (Collection.set key value self) = Collection.get key' self.
Proof.
  intros Hne. induction self as [|[k v] rest IH]; simpl.
  - by rewrite decide_False.
  - destruct (decide (k = key)) as [->|Hk]; simpl.
    + by rewrite !decide_False.
    + by rewrite IH.
Qed.

Lemma length_set_le key value self :
  (length (Collection.set key value self) <= S (length self))%nat.
Proof.
  induction self as [|[k v] rest IH]; simpl; [lia|].
  destruct (decide (k = key)); simpl; lia.
Qed.

Lemma length_delete_le key self :
  (length (Collection.delete key self) <= length self)%nat.
Proof.
  induction self as [|[k v] rest IH]; simpl; [lia|].
  destruct (decide (k = key)); simpl; lia.
Qed.

Lemma delete_absent key self :
  key ∉ Collection.keys self -> Collection.delete key self = self.
Proof.
  induction self as [|[k v] rest IH]; simpl; [done|].
  rewrite not_elem_of_cons. intros [Hne Hrest].
  destruct (decide (k = key)); [congruence|]. by rewrite IH.
Qed.

Lemma length_delete_firstKey self :
  self <> [] -> (S (length (delete_firstKey self)) <= length self)%nat.
Proof.
  destruct self as [|[k v] rest]; [done|]. intros _.
  unfold delete_firstKey. simpl. rewrite decide_True by done.
  pose proof (length_delete_le k rest). lia.
Qed.

Lemma delete_firstKey_NoDup key value self :
  NoDup (Collection.keys ((key, value) :: self)) ->
  delete_firstKey ((key, value) :: self) = self.
Proof.
  intros Hnd. apply NoDup_cons in Hnd as [Hk _].
  unfold delete_firstKey. simpl. rewrite decide_True by done.
  by apply delete_absent.
Qed.

End CollectionFacts.

(** ** [MessageStore.set] *)
Section SetFacts.
Context {V : Type}.
Implicit Types (self : Collection.t V) (key : Snowflake) (value : V).

Lemma set_disabled key value self : set 0 key value self = self.
Proof. unfold set. by rewrite bool_decide_eq_true_2. Qed.

Lemma set_unbounded maxSize key value self :
  maxSize < 0 -> set maxSize key value self = Collection.set key value self.
Proof.
  intros H. unfold set. rewrite bool_decide_eq_false_2 by lia.
  rewrite (bool_decide_eq_false_2 (maxSize > 0)) by lia.
  by rewrite andb_false_r.
Qed.

Lemma set_below maxSize key value self :
  Collection.size self < maxSize ->
  set maxSize key value self = Collection.set key value self.
Proof.
  intros H. pose proof (size_nonneg self). unfold set.
  rewrite bool_decide_eq_false_2 by lia.
  by rewrite (bool_decide_eq_false_2 (Collection.size self >= maxSize)) by lia.
Qed.

Lemma set_full maxSize key value self :
  0 < maxSize -> maxSize <= Collection.size self ->
  set maxSize key value self = Collection.set key value (delete_firstKey self).
Proof.
  intros H1 H2. unfold set. rewrite bool_decide_eq_false_2 by lia.
  rewrite (bool_decide_eq_true_2 (Collection.size self >= maxSize)) by lia.
  by rewrite (bool_decide_eq_true_2 (maxSize > 0)) by lia.
Qed.

Lemma set_keeps_bound maxSize key value self :
  0 < maxSize -> Collection.size self <= maxSize ->
  Collection.size (set maxSize key value self) <= maxSize.
Proof.
  intros Hpos Hle.
  destruct (decide (Collection.size self < maxSize)) as [Hlt|Hge].
  - rewrite set_below by done. unfold Collection.size in *.
    pose proof (length_set_le key value self). lia.
  - rewrite set_full by lia. unfold Collection.size in *.
    assert (self <> []) as Hne by (intros ->; simpl in *; lia).
    pose proof (length_delete_firstKey self Hne).
    pose proof (length_set_le key value (delete_firstKey self)). lia.
Qed.

Lemma set_all_bound maxSize calls self :
  0 < maxSize -> Collection.size self <= maxSize ->
  Collection.size (set_all maxSize calls self) <= maxSize.
Proof.
  intros Hpos. revert self. induction calls as [|[k v] calls IH]; intros self Hle.
  - done.
  - apply IH. by apply set_keeps_bound.
Qed.

Lemma set_all_disabled calls self : set_all 0 calls self = self.
Proof.
  revert self. induction calls as [|[k v] calls IH]; intros self; [done|].
  simpl. rewrite set_disabled. apply IH.
Qed.

(** C1. Capacity invariant: starting from an empty cache, after each call of
    any sequence of [set] calls (that is, after every prefix of the sequence)
    the size is at most a positive maximum, and it is 0 when the maximum
    is 0. *)
Theorem set_capacity_invariant (maxSize : Z) (calls : list (Snowflake * V)) (n : nat) :
  let after_n := set_all maxSize (take n calls) Collection.empty in
  (0 < maxSize -> Collection.size after_n <= maxSize) /\
  (maxSize = 0 -> Collection.size after_n = 0).
Proof.
  simpl. split.
  - intros Hpos. apply set_all_bound; [done|]. unfold Collection.size. simpl. lia.
  - intros ->. by rewrite set_all_disabled.
Qed.

End SetFacts.

Section EvictionFacts.
Context {V : Type}.
Implicit Types (self : Collection.t V) (key : Snowflake) (value : V).

Lemma keys_app self (more : Collection.t V) :
  Collection.keys (self ++ more) = Collection.keys self ++ Collection.keys more.
Proof. unfold Collection.keys. apply fmap_app. Qed.

(** With distinct keys throughout, a run of [set] calls keeps the newest
    [maxSize] entries of what was there followed by what was inserted. *)
Lemma set_all_distinct maxSize (calls : list (Snowflake * V)) self :
  0 < maxSize ->
  NoDup (Collection.keys (self ++ calls)) ->
  Collection.size self <= maxSize ->
  set_all maxSize calls self =
  drop (length (self ++ calls) - Z.to_nat maxSize) (self ++ calls).
Proof.
  intros Hpos. revert self.
  induction calls as [|[k v] calls IH]; intros self Hnd Hle.
  - simpl. rewrite app_nil_r.
    replace (length self - Z.to_nat maxSize)%nat with 0%nat
      by (unfold Collection.size in Hle; lia).
    done.
  - assert (k ∉ Collection.keys self) as Hfresh.
    { rewrite keys_app in Hnd. apply NoDup_app in Hnd as (_ & Hdisj & _).
      intros Hin. apply (Hdisj k Hin). simpl. apply elem_of_cons. by left. }
    simpl. destruct (decide (Collection.size self < maxSize)) as [Hlt|Hge].
    + rewrite set_below by done. rewrite set_fresh by done.
      rewrite IH.
      * by rewrite <- app_assoc.
      * by rewrite <- app_assoc.
      * unfold Collection.size in *. rewrite length_app. simpl. lia.
    + rewrite set_full by lia.
      destruct self as [|[k0 v0] self0].
      { unfold Collection.size in Hge. simpl in Hge. lia. }
      assert (NoDup (Collection.keys ((k0, v0) :: self0))) as Hnd0.
      { rewrite keys_app in Hnd. by apply NoDup_app in Hnd as (? & _ & _). }
      rewrite delete_firstKey_NoDup by done.
      assert (k ∉ Collection.keys self0) as Hfresh0.
      { intros Hin. apply Hfresh. simpl. apply elem_of_cons. by right. }
      rewrite set_fresh by done.
      rewrite IH.
      * rewrite <- !app_assoc. simpl.
        unfold Collection.size in *. simpl in *.
        rewrite !length_app. simpl.
        replace (S (length self0 + S (length calls)) - Z.to_nat maxSize)%nat
          with (S (length self0 + S (length calls) - Z.to_nat maxSize))%nat by lia.
        done.
      * rewrite <- app_assoc. simpl.
        change (NoDup (Collection.keys (self0 ++ (k, v) :: calls))).
        change (NoDup (k0 :: Collection.keys (self0 ++ (k, v) :: calls))) in Hnd.
        by apply NoDup_cons in Hnd as [_ ?].
      * unfold Collection.size in *. rewrite length_app. simpl in *. lia.
Qed.

(** C2. Eviction order: with a maximum [N > 0], inserting [N + 1] distinct
    identifiers [k1 .. k(N+1)] into an empty cache leaves exactly the entries
    of [k2 .. k(N+1)], in that order; [k1] is the one evicted. *)
Theorem set_evicts_oldest (maxSize : Z) (k1 : Snowflake) (v1 : V)
    (rest : list (Snowflake * V)) :
  0 < maxSize ->
  Z.of_nat (length rest) = maxSize ->
  NoDup (k1 :: Collection.keys rest) ->
  let final := set_all maxSize ((k1, v1) :: rest) Collection.empty in
  final = rest /\
  Collection.keys final = Collection.keys rest /\
  Collection.get k1 final = None.
Proof.
  intros Hpos Hlen Hnd final.
  assert (final = rest) as ->.
  { subst final. rewrite set_all_distinct; [| done | done |].
    - simpl. replace (S (length rest) - Z.to_nat maxSize)%nat with 1%nat by lia.
      done.
    - unfold Collection.size. simpl. lia. }
  split; [done|]. split; [done|].
  apply get_None_keys. by apply NoDup_cons in Hnd as [? _].
Qed.

(** C3 (amended). Update in place below capacity: when the maximum is not 0
    and [id] is present, [set(id, e1)] then [set(id, e2)] leaves
    [get(id) = e2]; if moreover the cache is below capacity (its size is
    smaller than the maximum, or the maximum is negative), the sequence of
    keys, hence the size and the position of [id], is unchanged and every
    other entry keeps its value. *)
Theorem set_twice_updates_in_place (maxSize : Z) key (e1 e2 : V) self :
  maxSize <> 0 ->
  key ∈ Collection.keys self ->
  let final := set maxSize key e2 (set maxSize key e1 self) in
  Collection.get key final = Some e2 /\
  (Collection.size self < maxSize \/ maxSize < 0 ->
   Collection.keys final = Collection.keys self /\
   Collection.size final = Collection.size self /\
   forall other, other <> key ->
     Collection.get other final = Collection.get other self).
Proof.
  intros Hmax Hin final. split.
  - subst final. unfold set at 1. rewrite bool_decide_eq_false_2 by done.
    apply get_set_eq.
  - intros Hroom.
    assert (forall (e : V) (c : Collection.t V), key ∈ Collection.keys c ->
              (Collection.size c < maxSize \/ maxSize < 0) ->
              set maxSize key e c = Collection.set key e c) as Hset.
    { intros e c _ [?|?]; [by apply set_below | by apply set_unbounded]. }
    assert (Collection.keys (Collection.set key e1 self) = Collection.keys self)
      as Hk1 by (by apply keys_set_present).
    assert (Collection.size (Collection.set key e1 self) = Collection.size self)
      as Hs1.
    { unfold Collection.size. f_equal.
      apply (f_equal length) in Hk1. unfold Collection.keys in Hk1.
      by rewrite !length_fmap in Hk1. }
    subst final. rewrite (Hset e1 self) by done.
    rewrite Hset; [| by rewrite Hk1 | by rewrite Hs1].
    assert (Collection.keys (Collection.set key e2 (Collection.set key e1 self))
            = Collection.keys self) as Hk2.
    { rewrite keys_set_present; [done | by rewrite Hk1]. }
    split; [done|]. split.
    + unfold Collection.size. f_equal.
      apply (f_equal length) in Hk2. unfold Collection.keys in Hk2.
      by rewrite !length_fmap in Hk2.
    + intros other Hne. by rewrite !get_set_ne.
Qed.

End EvictionFacts.

(** ** The fetching methods *)
Section StoreFacts.
Context {Payload Content Error : Type}.
Variable construct : Channel -> @RawMessage Payload -> Content.
Variable patch : Content -> @RawMessage Payload -> Content.
Variable maxSize : Z.
Variable channel : Channel.
Implicit Types (w : @World Content) (data : @RawMessage Payload)
  (api : @Api Payload Error).

Lemma add_cached data flag w existing :
  Collection.get (raw_id data) (cache w) = Some existing ->
  add (Error:=Error) construct maxSize channel data flag w =
  {| outcome := Fulfilled existing; world := w; requests := [] |}.
Proof.
  intros H. unfold add, DataStore_add, this_get, read_cache, mbind, M_bind.
  simpl. rewrite H. reflexivity.
Qed.

Lemma add_fresh data w :
  Collection.get (raw_id data) (cache w) = None ->
  add (Error:=Error) construct maxSize channel data None w =
  {| outcome := Fulfilled (length (heap w));
     world := {| heap := heap w ++ [Message_new construct data channel];
                 cache := set maxSize (raw_id data) (length (heap w)) (cache w) |};
     requests := [] |}.
Proof.
  intros H. unfold add, DataStore_add, this_get, read_cache, mbind, M_bind.
  simpl. rewrite H. reflexivity.
Qed.


(** The loop of a batch fetch issues no request and cannot reject. *)
Lemma for_of_settles (records : list (@RawMessage Payload)) :
  forall (messages : Collection.t ref) w,
  exists found w',
    for_of (Error:=Error) construct maxSize channel records messages w =
    {| outcome := Fulfilled found; world := w'; requests := [] |}.
Proof.
  induction records as [|data rest IH]; intros messages w; simpl.
  - by eexists _, _.
  - unfold mbind, M_bind.
    destruct (Collection.get (raw_id data) (cache w)) as [existing|] eqn:Hget.
    + rewrite (add_cached _ _ _ _ Hget). simpl.
      destruct (IH (Collection.set (raw_id data) existing messages) w)
        as (found & w' & ->).
      by eexists _, _.
    + rewrite (add_fresh _ _ Hget). simpl.
      match goal with |- context [for_of _ _ _ _ ?m ?w1] =>
        destruct (IH m w1) as (found & w' & ->) end.
      by eexists _, _.
Qed.



Lemma await_then {A} api (r : Request) (k : Reply r -> M A) w :
  (await api r ≫= k) w =
  match api r with
  | inl e => {| outcome := Rejected e; world := w; requests := [r] |}
  | inr d =>
      {| outcome := outcome (k d w); world := world (k d w);
         requests := r :: requests (k d w) |}
  end.
Proof. unfold await, mbind, M_bind. cbn. by destruct (api r). Qed.

Lemma this_get_then {A} (key : Snowflake) (k : option ref -> @M Content Error A) w :
  (this_get key ≫= k) w = k (Collection.get key (cache w)) w.
Proof.
  unfold this_get, read_cache, mbind, M_bind. cbn. by destruct (k _ w).
Qed.

Lemma fmap_run {A B} (f : A -> B) (m : @M Content Error A) w :
  (f <$> m) w =
  {| outcome := match outcome (m w) with
                | Fulfilled a => Fulfilled (f a)
                | Rejected e => Rejected e
                end;
     world := world (m w); requests := requests (m w) |}.
Proof.
  unfold fmap, M_fmap, mbind, M_bind, mret, M_ret.
  destruct (m w) as [[a|e] w1 l]; cbn; by rewrite ?app_nil_r.
Qed.

(** C9. Transport errors propagate: when the transport rejects the request of
    a fetch (single message, batch or pinned) with an error, the fetch rejects
    with that very error, having issued that one request and nothing else,
    and leaves the store as it was: no value, hence no partial collection,
    comes back. *)
Theorem transport_error_propagates api (c : FetchCall) w (e : Error) :
  api (route channel c) = inl e ->
  run_fetch construct patch maxSize channel api c w =
  {| outcome := Rejected e; world := w; requests := [route channel c] |}.
Proof.
  intros Hreply. destruct c as [message overwrite|].
  - destruct message; cbn [run_fetch fetch]; rewrite fmap_run;
      unfold _fetchId, _fetchMany; cbn [route default_options] in *;
      rewrite ?this_get_then;
      first [ rewrite (await_then api (GetMessages _ _))
            | rewrite (await_then api (GetMessage _ _)) ];
      by rewrite Hreply.
  - cbn [run_fetch]. rewrite fmap_run. unfold fetchPinned.
    cbn [route] in Hreply. rewrite (await_then api (GetPins _)).
    by rewrite Hreply.
Qed.

(** C10. The batch path drops [overwrite]: for query options, whatever is
    passed as [overwrite], the fetch runs the same way: same collection, same
    store afterwards, same request. *)
Theorem fetch_batch_ignores_overwrite api (o : ChannelLogsQueryOptions)
    (overwrite overwrite' : option bool) w :
  fetch construct patch maxSize channel api (VOptions o) overwrite w =
  fetch construct patch maxSize channel api (VOptions o) overwrite' w.
Proof. reflexivity. Qed.

Lemma typeof_string (message : Value) :
  typeof message = "string" <-> exists s, message = VString s.
Proof.
  split.
  - destruct message; try discriminate. by eexists.
  - by intros [s ->].
Qed.

(** C6 (amended). Dispatch: [fetch] takes the single-item path, resolving to
    one message, exactly when the selector is a string; every other selector
    (query options, nothing, and also a number) takes the batch path and
    resolves to a collection. *)
Theorem fetch_dispatch api (message : Value) (overwrite : option bool) w :
  let r := fetch construct patch maxSize channel api message overwrite w in
  taken_path r =
    Some (if bool_decide (typeof message = "string") then SingleItem else Batch) /\
  forall v, outcome r = Fulfilled v ->
    match v with
    | OneMessage _ => typeof message = "string"
    | Messages _ => typeof message <> "string"
    end.
Proof.
  destruct message; cbn [fetch]; rewrite fmap_run; unfold _fetchId, _fetchMany;
    rewrite ?this_get_then;
    first [ rewrite (await_then api (GetMessages _ _))
          | rewrite (await_then api (GetMessage _ _)) ];
    (split;
     [ by destruct (api _)
     | intros v; cbn [outcome]; destruct (api _) as [e|d]; cbn [outcome];
       [done|]; destruct (outcome _); [|done]; intros [= <-]; by cbn ]).
Qed.

(** C8. [resolve] and [resolveID] are read-only: they fulfil at once, leave
    the store (cache and heap) exactly as it was and issue no request.  An
    identifier that is not cached resolves to nothing, a cached one to its
    message and to itself, a message to itself and to its [id]. *)
Theorem resolve_is_pure (input : Value) w :
  (exists found, resolve (Error:=Error) input w =
     {| outcome := Fulfilled found; world := w; requests := [] |}) /\
  (exists found, resolveID (Error:=Error) input w =
     {| outcome := Fulfilled found; world := w; requests := [] |}) /\
  (forall key, input = VString key ->
     outcome (resolve (Error:=Error) input w)
       = Fulfilled (Collection.get key (cache w)) /\
     (Collection.get key (cache w) = None ->
      outcome (resolveID (Error:=Error) input w) = Fulfilled None) /\
     (is_Some (Collection.get key (cache w)) ->
      outcome (resolveID (Error:=Error) input w) = Fulfilled (Some key))) /\
  (forall m msg, input = VMessage m -> heap w !! m = Some msg ->
     outcome (resolve (Error:=Error) input w) = Fulfilled (Some m) /\
     outcome (resolveID (Error:=Error) input w) = Fulfilled (Some (msg_id msg))).
Proof.
  split; [|split; [|split]].
  - destruct input; by eexists.
  - destruct input; by eexists.
  - intros key ->. cbn [resolve resolveID]. rewrite this_get_then.
    split; [done|]. split.
    + by intros ->.
    + by intros [r ->].
  - intros m msg -> Hm. cbn. by rewrite Hm.
Qed.


(** *** Batch fetches *)

(** Nothing the records of a response need is missing from the cache while
    they are added: the cache is unbounded, or has a free slot for each. *)
Lemma set_with_room (records : list (@RawMessage Payload)) key value
    (self : Collection.t ref) :
  maxSize < 0 \/ Collection.size self + Z.of_nat (length records) <= maxSize ->
  records <> [] ->
  set maxSize key value self = Collection.set key value self.
Proof.
  intros [Hneg|Hroom] Hne; [by apply set_unbounded|].
  apply set_below. destruct records; [done|]. simpl in Hroom. lia.
Qed.

Lemma size_set_le {V} key (value : V) (self : Collection.t V) :
  Collection.size (Collection.set key value self) <= Collection.size self + 1.
Proof.
  unfold Collection.size. pose proof (length_set_le key value self). lia.
Qed.

Lemma for_of_spec (records : list (@RawMessage Payload)) :
  forall (messages : Collection.t ref) w,
  NoDup (raw_id <$> records) ->
  (forall data, data ∈ records -> raw_id data ∉ Collection.keys messages) ->
  exists found w',
    for_of (Error:=Error) construct maxSize channel records messages w =
      {| outcome := Fulfilled found; world := w'; requests := [] |} /\
    Collection.keys found = Collection.keys messages ++ (raw_id <$> records) /\
    (forall key m, Collection.get key messages = Some m ->
                   Collection.get key found = Some m) /\
    (maxSize < 0 \/
     Collection.size (cache w) + Z.of_nat (length records) <= maxSize ->
     (forall key m, Collection.get key (cache w) = Some m ->
                    Collection.get key (cache w') = Some m) /\
     (forall data, data ∈ records ->
        exists m, Collection.get (raw_id data) found = Some m /\
                  Collection.get (raw_id data) (cache w') = Some m)).
Proof.
  induction records as [|data rest IH]; intros messages w Hnd Hfresh.
  - exists messages, w. cbn. rewrite app_nil_r. repeat split; try done.
    intros data Hin. by apply elem_of_nil in Hin.
  - rewrite fmap_cons in Hnd. apply NoDup_cons in Hnd as [Hhead Hnd].
    assert (raw_id data ∉ Collection.keys messages) as Hnew
      by (apply Hfresh, elem_of_cons; by left).
    assert (forall m other, other ∈ rest ->
              raw_id other ∉ Collection.keys (Collection.set (raw_id data) m messages))
      as Hfresh'.
    { intros m other Hin. rewrite set_fresh by done. rewrite keys_app.
      intros [Hold|Hhere]%elem_of_app.
      - by apply (Hfresh other); [apply elem_of_cons; right|].
      - cbn in Hhere. apply list_elem_of_singleton in Hhere. apply Hhead.
        rewrite <- Hhere. by apply list_elem_of_fmap_2. }
    cbn [for_of]. unfold mbind, M_bind.
    destruct (Collection.get (raw_id data) (cache w)) as [existing|] eqn:Hget.
    + rewrite (add_cached _ _ _ existing Hget). cbn -[for_of].
      destruct (IH (Collection.set (raw_id data) existing messages) w Hnd
                  (Hfresh' existing)) as (found & w' & -> & Hkeys & Hkeep & Hroom).
      exists found, w'. cbn. split; [done|]. split; [|split].
      * rewrite Hkeys, set_fresh, keys_app by done. by rewrite <- app_assoc.
      * intros key m Hm. apply Hkeep. rewrite get_set_ne; [done|].
        intros <-. apply get_None_keys in Hnew. congruence.
      * intros Hcap. destruct Hroom as [Hcache Hall].
        { destruct Hcap as [?|Hcap]; [by left|right].
          simpl in Hcap. lia. }
        split; [done|]. intros d [->|Hin]%elem_of_cons; [|by apply Hall].
        exists existing. split; [apply Hkeep, get_set_eq | by apply Hcache].
    + rewrite (add_fresh _ _ Hget). cbn -[for_of].
      match goal with |- context [for_of _ _ _ _ ?m ?w1] =>
        destruct (IH m w1 Hnd (Hfresh' _))
          as (found & w' & -> & Hkeys & Hkeep & Hroom) end.
      exists found, w'. cbn. split; [done|]. split; [|split].
      * rewrite Hkeys, set_fresh, keys_app by done. by rewrite <- app_assoc.
      * intros key m Hm. apply Hkeep. rewrite get_set_ne; [done|].
        intros <-. apply get_None_keys in Hnew. congruence.
      * intros Hcap. cbn [cache] in Hroom.
        rewrite (set_with_room (data :: rest)) in Hroom by done.
        destruct Hroom as [Hcache Hall].
        { destruct Hcap as [?|Hcap]; [by left|right].
          pose proof (size_set_le (V:=ref) (raw_id data) (length (heap w)) (cache w)).
          cbn [length] in Hcap. lia. }
        split.
        { intros key m Hm. apply Hcache. rewrite get_set_ne; [done|].
          intros <-. congruence. }
        intros d [->|Hin]%elem_of_cons; [|by apply Hall].
        exists (length (heap w)).
        split; [apply Hkeep, get_set_eq | apply Hcache, get_set_eq].
Qed.


(** *** A disabled cache stays empty *)

Lemma add_keeps_empty data flag w :
  maxSize = 0 -> cache w = [] ->
  add (Error:=Error) construct maxSize channel data flag w =
  {| outcome := Fulfilled (length (heap w));
     world := {| heap := heap w ++ [Message_new construct data channel];
                 cache := [] |};
     requests := [] |}.
Proof.
  intros -> Hempty. unfold add, DataStore_add. rewrite this_get_then, Hempty.
  cbn [Collection.get]. unfold new, this_set, write_cache, mbind, M_bind, mret, M_ret.
  destruct (default true flag); cbn; by rewrite ?set_disabled, ?Hempty.
Qed.

Lemma for_of_keeps_empty (records : list (@RawMessage Payload)) :
  forall (messages : Collection.t ref) w,
  maxSize = 0 -> cache w = [] ->
  cache (world (for_of (Error:=Error) construct maxSize channel records messages w)) = [].
Proof.
  induction records as [|data rest IH]; intros messages w Hmax Hempty; [done|].
  cbn [for_of]. unfold mbind, M_bind. rewrite add_keeps_empty by done.
  cbn -[for_of]. by apply IH.
Qed.

Lemma call_keeps_empty api (c : Call) w :
  maxSize = 0 -> cache w = [] ->
  cache (call construct patch maxSize channel api c w) = [].
Proof.
  intros Hmax Hempty. destruct c as [key value|key|data flag|message overwrite| | |];
    cbn [call].
  - unfold this_set, write_cache. cbn. subst maxSize. by rewrite set_disabled.
  - unfold this_delete, write_cache. cbn. by rewrite Hempty.
  - by rewrite add_keeps_empty.
  - destruct message; cbn [fetch]; rewrite fmap_run; cbn [world];
      unfold _fetchId, _fetchMany; rewrite ?this_get_then, ?Hempty;
      first [ rewrite (await_then api (GetMessages _ _))
            | rewrite (await_then api (GetMessage _ _)) ];
      destruct (api _) as [e|d]; cbn [world]; try done;
      try (by apply for_of_keeps_empty).
    cbn [Collection.get]. unfold mret, M_ret, mbind, M_bind. cbn -[add].
    by rewrite add_keeps_empty.
  - unfold fetchPinned. rewrite (await_then api (GetPins _)).
    destruct (api _) as [e|d]; cbn [world]; [done|]. by apply for_of_keeps_empty.
  - by destruct input.
  - by destruct input.
Qed.

Lemma replay_keeps_empty (history : list (@Api Payload Error * @Call Payload)) :
  forall w, maxSize = 0 -> cache w = [] ->
  cache (replay construct patch maxSize channel history w) = [].
Proof.
  induction history as [|[api c] history IH]; intros w Hmax Hempty; [done|].
  cbn. apply IH; [done|]. by apply call_keeps_empty.
Qed.

(** C7. Disabled cache: with a maximum of 0, whatever happened to the store
    since it was created empty, [fetch(id)] fulfils with a message newly built
    from the remote record, and the cache holds nothing afterwards: [get] is
    absent for [id] as for every key. *)
Theorem disabled_cache_fetch (history : list (@Api Payload Error * @Call Payload))
    (h0 : list (@Message Content))
    api (messageID : Snowflake) (overwrite : option bool) data :
  maxSize = 0 ->
  api (GetMessage (channel_id channel) messageID) = inr data ->
  let w := replay construct patch maxSize channel history (empty_store h0) in
  let r := fetch construct patch maxSize channel api (VString messageID) overwrite w in
  outcome r = Fulfilled (OneMessage (length (heap w))) /\
  heap (world r) !! length (heap w) = Some (Message_new construct data channel) /\
  forall key, Collection.get key (cache (world r)) = None.
Proof.
  intros Hmax Hreply w r.
  assert (cache w = []) as Hempty by (by apply replay_keeps_empty).
  subst r. cbn [fetch]. rewrite fmap_run. unfold _fetchId.
  rewrite this_get_then, Hempty. cbn [Collection.get].
  rewrite (await_then api (GetMessage _ _)), Hreply.
  unfold mret, M_ret, mbind, M_bind. cbn -[add].
  rewrite add_keeps_empty by done. cbn. split; [done|]. split; [|done].
  rewrite lookup_app_r by done. by rewrite Nat.sub_diag.
Qed.

End StoreFacts.

(** ** Worked instances *)

(** Capacity 2, after the third of four calls. *)
Lemma set_capacity_invariant_witness :
  Collection.size
    (set_all 2 (take 3 [("a", 1%nat); ("b", 2%nat); ("a", 3%nat); ("c", 4%nat)])
       Collection.empty) <= 2.
Proof.
  apply (proj1 (set_capacity_invariant 2
                  [("a", 1%nat); ("b", 2%nat); ("a", 3%nat); ("c", 4%nat)] 3)).
  lia.
Defined.

(** Capacity 2, three distinct keys: the first one goes. *)
Lemma set_evicts_oldest_witness :
  let final := set_all 2 [("k1", 1%nat); ("k2", 2%nat); ("k3", 3%nat)]
                 Collection.empty in
  final = [("k2", 2%nat); ("k3", 3%nat)] /\
  Collection.keys final = ["k2"; "k3"] /\
  Collection.get "k1" final = None.
Proof.
  apply (set_evicts_oldest 2 "k1" 1%nat [("k2", 2%nat); ("k3", 3%nat)]).
  - lia.
  - reflexivity.
  - apply (bool_decide_unpack _). vm_compute. exact I.
Defined.

(** Capacity 3, two entries: setting the older one twice moves nothing. *)
Lemma set_twice_updates_in_place_witness :
  let self := [("a", 1%nat); ("b", 2%nat)] in
  let final := set 3 "a" 20%nat (set 3 "a" 10%nat self) in
  Collection.get "a" final = Some 20%nat /\
  (Collection.size self < 3 \/ 3 < 0 ->
   Collection.keys final = Collection.keys self /\
   Collection.size final = Collection.size self /\
   forall other, other <> "a" ->
     Collection.get other final = Collection.get other self).
Proof.
  apply (set_twice_updates_in_place 3 "a" 10%nat 20%nat [("a", 1%nat); ("b", 2%nat)]).
  - lia.
  - apply (bool_decide_unpack _). vm_compute. exact I.
Defined.

(** C3, as stated, fails at capacity.  With a maximum of 2, [set("b")] then
    [set("a")] fill the cache; ["b"] is present, yet [set("b", 10)] then
    [set("b", 20)] leaves ["b"] alone in the cache: the first call evicts
    ["b"] itself and appends it again behind ["a"], the second evicts
    ["a"]. *)
Lemma set_twice_at_capacity_evicts :
  let self := set_all 2 [("b", 0%nat); ("a", 1%nat)] Collection.empty in
  let final := set 2 "b" 20%nat (set 2 "b" 10%nat self) in
  "b" ∈ Collection.keys self /\
  Collection.keys (set 2 "b" 10%nat self) = ["a"; "b"] /\
  final = [("b", 20%nat)] /\
  ~ (Collection.size final = Collection.size self /\
     Collection.get "b" final = Some 20%nat /\
     Collection.keys final = Collection.keys self /\
     Collection.get "a" final = Collection.get "a" self).
Proof.
  cbv zeta. split; [|split; [|split]].
  - apply (bool_decide_unpack _). vm_compute. exact I.
  - reflexivity.
  - reflexivity.
  - intros [Hsize _]. vm_compute in Hsize. discriminate.
Qed.


(** The pins route of the demo transport fails. *)
Lemma transport_error_propagates_witness :
  run_fetch Demo.construct Demo.patch 2 Demo.general Demo.api FetchPinned
    Demo.holding_A =
  {| outcome := Rejected "503"; world := Demo.holding_A;
     requests := [GetPins "general"] |}.
Proof.
  apply (transport_error_propagates Demo.construct Demo.patch 2 Demo.general
           Demo.api FetchPinned Demo.holding_A "503").
  reflexivity.
Defined.

(** C6, as stated, fails on numbers: a numeric identifier is sent down the
    batch path, as the [query] of the list route, and a collection comes
    back. *)
Lemma fetch_number_takes_batch_path :
  let r := fetch Demo.construct Demo.patch 5 Demo.general Demo.api
             (VNumber 99539446449315840) None (empty_store []) in
  spec_is_identifier (VNumber 99539446449315840) = true /\
  requests r = [GetMessages "general" (VNumber 99539446449315840)] /\
  taken_path r = Some Batch /\
  taken_path r <> Some SingleItem /\
  outcome r = Fulfilled (Messages [("m3", 0%nat); ("m2", 1%nat); ("m1", 2%nat)]).
Proof. cbv zeta. repeat split; try reflexivity. discriminate. Qed.

(** A disabled cache after a batch fetch and a [set]: fetching ["A"] still
    builds the message. *)
Lemma disabled_cache_fetch_witness :
  let history :=
    [(Demo.api, CallFetch VUndefined None); (Demo.api, CallSet "x" 0%nat)] in
  let w := replay Demo.construct Demo.patch 0 Demo.general history (empty_store []) in
  let r := fetch Demo.construct Demo.patch 0 Demo.general Demo.api
             (VString "A") None w in
  outcome r = Fulfilled (OneMessage (length (heap w))) /\
  heap (world r) !! length (heap w)
    = Some (Message_new Demo.construct (Demo.record "A" "fresh") Demo.general) /\
  forall key, Collection.get key (cache (world r)) = None.
Proof.
  apply (disabled_cache_fetch Demo.construct Demo.patch 0 Demo.general
           [(Demo.api, CallFetch VUndefined None); (Demo.api, CallSet "x" 0%nat)]
           [] Demo.api "A" None (Demo.record "A" "fresh")).
  - reflexivity.
  - reflexivity.
Defined.

(** * Further properties of [MessageStore.set] *)
Section SetBehaviour.
Context {V : Type}.
Implicit Types (self : Collection.t V) (key : Snowflake) (value : V).

Lemma get_delete_ne key other self :
  key <> other ->
  Collection.get other (Collection.delete key self) = Collection.get other self.
Proof.
  intros Hne. induction self as [|[k v] rest IH]; simpl; [done|].
  destruct (decide (k = key)) as [->|Hk]; simpl.
  - by rewrite decide_False.
  - by rewrite IH.
Qed.

Lemma keys_delete_subset key other self :
  other ∈ Collection.keys (Collection.delete key self) ->
  other ∈ Collection.keys self.
Proof.
  induction self as [|[k v] rest IH]; simpl; [done|].
  destruct (decide (k = key)) as [->|Hk].
  - intros Hin. apply elem_of_cons. right. by apply IH.
  - intros [->|Hin]%elem_of_cons; apply elem_of_cons; [by left|].
    right. by apply IH.
Qed.

Lemma keys_Collection_set key value other self :
  other ∈ Collection.keys (Collection.set key value self) <->
  other = key \/ other ∈ Collection.keys self.
Proof.
  induction self as [|[k v] rest IH]; simpl.
  - rewrite list_elem_of_singleton. split; [by left|].
    intros [?|Hin]; [done|]. by apply elem_of_nil in Hin.
  - destruct (decide (k = key)) as [->|Hk].
    + change (other ∈ key :: Collection.keys rest <->
              other = key \/ other ∈ key :: Collection.keys rest).
      rewrite elem_of_cons. tauto.
    + change (other ∈ k :: Collection.keys (Collection.set key value rest) <->
              other = key \/ other ∈ k :: Collection.keys rest).
      rewrite !elem_of_cons, IH. tauto.
Qed.

Lemma NoDup_Collection_set key value self :
  NoDup (Collection.keys self) ->
  NoDup (Collection.keys (Collection.set key value self)).
Proof.
  induction self as [|[k v] rest IH]; simpl.
  - intros _. apply NoDup_singleton.
  - intros [Hk Hnd]%NoDup_cons. destruct (decide (k = key)) as [->|Hne].
    + by apply NoDup_cons.
    + change (NoDup (k :: Collection.keys (Collection.set key value rest))).
      apply NoDup_cons. split; [|by apply IH].
      rewrite keys_Collection_set. intros [?|?]; [congruence|done].
Qed.

Lemma length_Collection_set_ge key value self :
  (length self <= length (Collection.set key value self))%nat.
Proof.
  induction self as [|[k v] rest IH]; simpl; [lia|].
  destruct (decide (k = key)); simpl; lia.
Qed.

Lemma keys_set_subset maxSize key value other self :
  other ∈ Collection.keys (set maxSize key value self) ->
  other = key \/ other ∈ Collection.keys self.
Proof.
  unfold set. destruct (bool_decide (maxSize = 0)); [by right|].
  destruct (_ && _).
  - rewrite keys_Collection_set. intros [?|Hin]; [by left|right].
    unfold delete_firstKey in Hin.
    destruct (Collection.firstKey self); [|done].
    by apply keys_delete_subset in Hin.
  - by rewrite keys_Collection_set.
Qed.

(** X1. Insert then look up: unless the cache is disabled, [get(key)] right
    after [set(key, value)] is [value], whatever had to be evicted. *)
Theorem set_then_get maxSize key value self :
  maxSize <> 0 ->
  Collection.get key (set maxSize key value self) = Some value.
Proof.
  intros Hmax. unfold set. rewrite bool_decide_eq_false_2 by done.
  apply get_set_eq.
Qed.

(** X2. Frame: [set(key, _)] reads or writes no entry but that of [key] and
    the oldest one: every other key keeps its value. *)
Theorem set_leaves_others maxSize key value other self :
  other <> key ->
  Collection.firstKey self <> Some other ->
  Collection.get other (set maxSize key value self) = Collection.get other self.
Proof.
  intros Hne Hfirst. unfold set. destruct (bool_decide (maxSize = 0)); [done|].
  destruct (_ && _).
  - rewrite get_set_ne by done. unfold delete_firstKey.
    destruct (Collection.firstKey self) as [k|]; [|done].
    apply get_delete_ne. congruence.
  - by rewrite get_set_ne.
Qed.

(** X3. One eviction at most: a [set] removes at most one entry and adds at
    most one, so a cache that is more than one entry above its maximum (the
    option was lowered meanwhile) is still above it afterwards. *)
Theorem set_changes_size_by_one maxSize key value self :
  NoDup (Collection.keys self) ->
  let final := set maxSize key value self in
  Collection.size self - 1 <= Collection.size final <= Collection.size self + 1 /\
  (maxSize + 1 < Collection.size self -> maxSize < Collection.size final).
Proof.
  intros Hnd final.
  assert (Collection.size self - 1 <= Collection.size final
          <= Collection.size self + 1) as Hsize.
  { subst final. unfold set. destruct (bool_decide (maxSize = 0)); [lia|].
    destruct (_ && _).
    - destruct self as [|[k0 v0] rest].
      + unfold delete_firstKey, Collection.size. simpl. lia.
      + rewrite delete_firstKey_NoDup by done.
        pose proof (length_set_le key value rest).
        pose proof (length_Collection_set_ge key value rest).
        unfold Collection.size. simpl length. lia.
    - pose proof (length_set_le key value self).
      pose proof (length_Collection_set_ge key value self).
      unfold Collection.size. lia. }
  split; [done|]. lia.
Qed.

(** X4. At capacity the oldest entry always goes, also when [key] is present:
    the result is the rest of the cache with [key] set in it.  So a present
    key other than the oldest is updated where it stands while the oldest is
    lost, and re-setting the oldest key itself moves it to the newest
    position. *)
Theorem set_at_capacity maxSize key value (oldest : Snowflake) (v0 : V) self :
  NoDup (Collection.keys ((oldest, v0) :: self)) ->
  0 < maxSize ->
  maxSize <= Collection.size ((oldest, v0) :: self) ->
  let final := set maxSize key value ((oldest, v0) :: self) in
  final = Collection.set key value self /\
  (key <> oldest -> Collection.get oldest final = None) /\
  (key = oldest -> final = self ++ [(key, value)]).
Proof.
  intros Hnd Hpos Hfull final.
  assert (final = Collection.set key value self) as ->.
  { subst final. rewrite set_full by done. by rewrite delete_firstKey_NoDup. }
  apply NoDup_cons in Hnd as [Hold _]. split; [done|]. split.
  - intros Hne. rewrite get_set_ne by done. by apply get_None_keys.
  - intros ->. by apply set_fresh.
Qed.

(** X5. Sliding window: any number of [set] calls with distinct keys into an
    empty cache of capacity [N > 0] leaves exactly the last [min n N] calls,
    in call order. *)
Theorem set_all_keeps_newest maxSize (calls : list (Snowflake * V)) :
  0 < maxSize ->
  NoDup (Collection.keys calls) ->
  let final := set_all maxSize calls Collection.empty in
  final = drop (length calls - Z.to_nat maxSize) calls /\
  Collection.size final = Z.min (Z.of_nat (length calls)) maxSize.
Proof.
  intros Hpos Hnd final.
  assert (final = drop (length calls - Z.to_nat maxSize) calls) as ->.
  { subst final. rewrite set_all_distinct; [done | done | done |].
    unfold Collection.size. simpl. lia. }
  split; [done|]. unfold Collection.size. rewrite length_drop. lia.
Qed.

(** X6. Unbounded cache: with a negative maximum nothing is ever evicted;
    after any sequence of [set] calls the keys cached are those that were
    there and those that were set. *)
Theorem set_unbounded_keeps_all maxSize (calls : list (Snowflake * V)) self key :
  maxSize < 0 ->
  key ∈ Collection.keys (set_all maxSize calls self) <->
  key ∈ Collection.keys self \/ key ∈ calls.*1.
Proof.
  intros Hneg. revert self. induction calls as [|[k v] calls IH]; intros self.
  - simpl. split; [by left|]. intros [?|Hin]; [done|]. by apply elem_of_nil in Hin.
  - simpl. rewrite IH, set_unbounded by done.
    rewrite keys_Collection_set, elem_of_cons. tauto.
Qed.

End SetBehaviour.

(** * Further properties of the fetching methods *)
Section StoreBehaviour.
Context {Payload Content Error : Type}.
Variable construct : Channel -> @RawMessage Payload -> Content.
Variable patch : Content -> @RawMessage Payload -> Content.
Variable maxSize : Z.
Variable channel : Channel.
Implicit Types (w : @World Content) (data : @RawMessage Payload)
  (api : @Api Payload Error).

(** [add] settles at once, without a request, and touches the cache through
    [set] alone. *)
Lemma add_run data flag w :
  exists m w',
    add (Error:=Error) construct maxSize channel data flag w =
      {| outcome := Fulfilled m; world := w'; requests := [] |} /\
    (cache w' = cache w \/
     cache w' = set maxSize (raw_id data) (length (heap w)) (cache w)).
Proof.
  unfold add, DataStore_add. rewrite this_get_then.
  destruct (Collection.get (raw_id data) (cache w)) as [existing|].
  - exists existing, w. split; [done|]. by left.
  - unfold new, this_set, write_cache, mbind, M_bind, mret, M_ret.
    destruct (default true flag); cbn; eexists _, _; (split; [done|]); cbn;
      [by right | by left].
Qed.

(** The world [_fetchId] hands to [add]: the cached object patched, when
    there is one and [overwrite] is set. *)
Lemma fetch_single_run api (messageID : Snowflake) (overwrite : option bool) data w :
  api (GetMessage (channel_id channel) messageID) = inr data ->
  exists w1,
    cache w1 = cache w /\ length (heap w1) = length (heap w) /\
    fetch construct patch maxSize channel api (VString messageID) overwrite w =
    {| outcome :=
         match outcome (add (Error:=Error) construct maxSize channel data None w1) with
         | Fulfilled m => Fulfilled (OneMessage m)
         | Rejected e => Rejected e
         end;
       world := world (add (Error:=Error) construct maxSize channel data None w1);
       requests := [GetMessage (channel_id channel) messageID] |}.
Proof.
  intros Hreply. cbn [fetch]. rewrite fmap_run. unfold _fetchId.
  rewrite this_get_then, (await_then api (GetMessage _ _)), Hreply.
  unfold mbind, M_bind, _patch, mret, M_ret.
  destruct (Collection.get messageID (cache w)) as [existing|];
    [destruct (default false overwrite)|]; cbn -[add].
  - match goal with |- context [add _ _ _ _ _ ?w1] => exists w1 end.
    cbn -[add]. split; [done|]. split; [by rewrite length_alter|].
    match goal with |- context [add _ _ _ _ _ ?w1] =>
      destruct (add_run data None w1) as (m & w' & -> & _) end.
    done.
  - exists w. split; [done|]. split; [done|].
    destruct (add_run data None w) as (m & w' & -> & _). done.
  - exists w. split; [done|]. split; [done|].
    destruct (add_run data None w) as (m & w' & -> & _). done.
Qed.

(** What a batch fetch does once the transport has answered. *)
Lemma fetch_batch_run api (message : Value) (overwrite : option bool)
    (records : list (@RawMessage Payload)) w :
  typeof message <> "string" ->
  api (GetMessages (channel_id channel) (default_options message)) = inr records ->
  fetch construct patch maxSize channel api message overwrite w =
  {| outcome :=
       match outcome (for_of (Error:=Error) construct maxSize channel records Collection.empty w) with
       | Fulfilled found => Fulfilled (Messages found)
       | Rejected e => Rejected e
       end;
     world := world (for_of (Error:=Error) construct maxSize channel records Collection.empty w);
     requests := GetMessages (channel_id channel) (default_options message)
                 :: requests (for_of (Error:=Error) construct maxSize channel records
                                Collection.empty w) |}.
Proof.
  intros Hty Hreply.
  assert (fetch construct patch maxSize channel api message overwrite
          = Messages <$> _fetchMany construct maxSize channel api message) as ->.
  { destruct message; try done. }
  unfold _fetchMany.
  by rewrite fmap_run, (await_then api (GetMessages _ _)), Hreply.
Qed.

(** X7. One call, one request: every fetch, single, batch or pinned, issues
    exactly the request of its route, whether the transport fails or
    answers and whatever the answer holds. *)
Theorem fetch_issues_one_request api (c : FetchCall) w :
  requests (run_fetch construct patch maxSize channel api c w)
  = [route channel c].
Proof.
  destruct c as [message overwrite|].
  - destruct (decide (typeof message = "string")) as [Hs|Hs].
    + destruct message; try done. cbn [run_fetch route].
      destruct (api (GetMessage (channel_id channel) s)) as [e|data] eqn:Hreply.
      * cbn [fetch]. rewrite fmap_run. unfold _fetchId.
        by rewrite this_get_then, (await_then api (GetMessage _ _)), Hreply.
      * destruct (fetch_single_run api s overwrite data w Hreply)
          as (w1 & _ & _ & ->). done.
    + assert (route channel (Fetch message overwrite)
              = GetMessages (channel_id channel) (default_options message)) as ->.
      { destruct message; try done. }
      cbn [run_fetch].
      destruct (api (GetMessages (channel_id channel) (default_options message)))
        as [e|records] eqn:Hreply.
      * assert (fetch construct patch maxSize channel api message overwrite
                = Messages <$> _fetchMany construct maxSize channel api message) as ->.
        { destruct message; try done. }
        unfold _fetchMany.
        by rewrite fmap_run, (await_then api (GetMessages _ _)), Hreply.
      * rewrite (fetch_batch_run api message overwrite records w Hs Hreply).
        destruct (for_of_settles (Error:=Error) construct maxSize channel records
                    Collection.empty w) as (found & w' & ->). done.
  - cbn [run_fetch route]. rewrite fmap_run. unfold fetchPinned.
    rewrite (await_then api (GetPins _)). cbn [requests].
    destruct (api (GetPins (channel_id channel))) as [e|records]; [done|].
    cbn [requests].
    destruct (for_of_settles (Error:=Error) construct maxSize channel records
                Collection.empty w) as (found & w' & ->). done.
Qed.

(** *** The capacity bound under every use of the store *)

Lemma add_keeps_bound data flag w :
  0 < maxSize -> Collection.size (cache w) <= maxSize ->
  Collection.size
    (cache (world (add (Error:=Error) construct maxSize channel data flag w)))
  <= maxSize.
Proof.
  intros Hpos Hle. destruct (add_run data flag w) as (m & w' & Hrun & Hc).
  rewrite Hrun. cbn [world]. destruct Hc as [-> | ->].
  - done.
  - by apply set_keeps_bound.
Qed.

Lemma for_of_keeps_bound (records : list (@RawMessage Payload)) :
  forall (messages : Collection.t ref) w,
  0 < maxSize -> Collection.size (cache w) <= maxSize ->
  Collection.size
    (cache (world (for_of (Error:=Error) construct maxSize channel records
                     messages w)))
  <= maxSize.
Proof.
  induction records as [|data rest IH]; intros messages w Hpos Hle; [done|].
  cbn [for_of]. unfold mbind, M_bind.
  pose proof (add_keeps_bound data None w Hpos Hle) as Hadd.
  destruct (add_run data None w) as (m & w' & Hrun & _).
  rewrite Hrun in Hadd |- *. cbn -[for_of] in Hadd |- *. by apply IH.
Qed.

Lemma call_keeps_bound api (c : Call) w :
  0 < maxSize -> Collection.size (cache w) <= maxSize ->
  Collection.size (cache (call construct patch maxSize channel api c w)) <= maxSize.
Proof.
  intros Hpos Hle.
  destruct c as [key value|key|data flag|message overwrite| | |]; cbn [call].
  - unfold this_set, write_cache. cbn. by apply set_keeps_bound.
  - unfold this_delete, write_cache. cbn.
    pose proof (length_delete_le key (cache w)). unfold Collection.size in *. lia.
  - by apply add_keeps_bound.
  - destruct (decide (typeof message = "string")) as [Hs|Hs].
    + destruct message; try done.
      destruct (api (GetMessage (channel_id channel) s)) as [e|data] eqn:Hreply.
      * cbn [fetch]. rewrite fmap_run. unfold _fetchId.
        by rewrite this_get_then, (await_then api (GetMessage _ _)), Hreply.
      * destruct (fetch_single_run api s overwrite data w Hreply)
          as (w1 & Hc & _ & ->). cbn [world].
        apply add_keeps_bound; [done|]. by rewrite Hc.
    + destruct (api (GetMessages (channel_id channel) (default_options message)))
        as [e|records] eqn:Hreply.
      * assert (fetch construct patch maxSize channel api message overwrite
                = Messages <$> _fetchMany construct maxSize channel api message) as ->.
        { destruct message; try done. }
        unfold _fetchMany.
        by rewrite fmap_run, (await_then api (GetMessages _ _)), Hreply.
      * rewrite (fetch_batch_run api message overwrite records w Hs Hreply).
        cbn [world]. by apply for_of_keeps_bound.
  - unfold fetchPinned. rewrite (await_then api (GetPins _)).
    destruct (api _) as [e|d]; cbn [world]; [done|]. by apply for_of_keeps_bound.
  - by destruct input.
  - by destruct input.
Qed.

(** X8. The capacity bound is an invariant of the store: with a positive
    maximum, whatever sequence of [set], [delete], [add], [fetch],
    [fetchPinned], [resolve] and [resolveID] calls a store created empty goes
    through, and whatever the transport answers, the cache never holds more
    than the maximum. *)
Theorem capacity_invariant_of_store
    (history : list (@Api Payload Error * @Call Payload))
    (h0 : list (@Message Content)) :
  0 < maxSize ->
  Collection.size
    (cache (replay construct patch maxSize channel history (empty_store h0)))
  <= maxSize.
Proof.
  intros Hpos.
  assert (forall w, Collection.size (cache w) <= maxSize ->
            Collection.size (cache (replay construct patch maxSize channel history w))
            <= maxSize) as Hall.
  { induction history as [|[api c] history IH]; intros w Hle; [done|].
    cbn. apply IH. by apply call_keeps_bound. }
  apply Hall. unfold Collection.size. simpl. lia.
Qed.

(** X9. Fetch then look up: unless the cache is disabled, after
    [fetch(id)] has fulfilled, [get(id)] is the very object it resolved to,
    whether it was cached before or not and whatever was evicted. *)
Theorem fetch_then_get api (messageID : Snowflake) (overwrite : option bool) data w :
  maxSize <> 0 ->
  api (GetMessage (channel_id channel) messageID) = inr data ->
  raw_id data = messageID ->
  let r := fetch construct patch maxSize channel api (VString messageID) overwrite w in
  exists m, outcome r = Fulfilled (OneMessage m) /\
            Collection.get messageID (cache (world r)) = Some m.
Proof.
  intros Hmax Hreply Hid r. subst r.
  destruct (fetch_single_run api messageID overwrite data w Hreply)
    as (w1 & Hc & _ & ->). cbn [outcome world].
  destruct (Collection.get (raw_id data) (cache w1)) as [existing|] eqn:Hget.
  - rewrite (add_cached _ _ _ _ None w1 existing Hget). cbn.
    exists existing. by rewrite <- Hid.
  - rewrite (add_fresh _ _ _ _ w1 Hget). cbn.
    exists (length (heap w1)). split; [done|]. rewrite <- Hid.
    unfold set. rewrite bool_decide_eq_false_2 by done. apply get_set_eq.
Qed.

(** X10. [overwrite] only matters for a cached identifier: when [id] is not
    in the cache, [fetch(id, overwrite)] runs the same way for every value of
    [overwrite]. *)
Theorem fetch_overwrite_needs_cached api (messageID : Snowflake)
    (overwrite overwrite' : option bool) w :
  Collection.get messageID (cache w) = None ->
  fetch construct patch maxSize channel api (VString messageID) overwrite w =
  fetch construct patch maxSize channel api (VString messageID) overwrite' w.
Proof.
  intros Hget. cbn [fetch]. rewrite !fmap_run. unfold _fetchId.
  by rewrite !this_get_then, Hget.
Qed.

(** X11. [fetchPinned] accumulates as a batch [fetch] does: when the pins
    route and the messages route answer with the same records, both fulfil
    with the same collection and leave the same store. *)
Theorem fetchPinned_accumulates_like_fetch api (message : Value)
    (overwrite : option bool) (records : list (@RawMessage Payload)) w :
  typeof message <> "string" ->
  api (GetMessages (channel_id channel) (default_options message)) = inr records ->
  api (GetPins (channel_id channel)) = inr records ->
  let pinned := run_fetch construct patch maxSize channel api FetchPinned w in
  let batch := fetch construct patch maxSize channel api message overwrite w in
  outcome pinned = outcome batch /\ world pinned = world batch.
Proof.
  intros Hty Hbatch Hpins pinned batch. subst pinned batch.
  rewrite (fetch_batch_run api message overwrite records w Hty Hbatch).
  cbn [run_fetch]. rewrite fmap_run. unfold fetchPinned.
  by rewrite (await_then api (GetPins _)), Hpins.
Qed.

(** *** Batches of records that are not cached yet *)

Lemma for_of_fresh (records : list (@RawMessage Payload)) :
  forall (messages : Collection.t ref) w,
  NoDup (raw_id <$> records) ->
  (forall data, data ∈ records -> raw_id data ∉ Collection.keys (cache w)) ->
  (forall data, data ∈ records -> raw_id data ∉ Collection.keys messages) ->
  let entries := zip (raw_id <$> records) (seq (length (heap w)) (length records)) in
  for_of (Error:=Error) construct maxSize channel records messages w =
  {| outcome := Fulfilled (messages ++ entries);
     world := {| heap := heap w ++ ((fun data => Message_new construct data channel)
                                      <$> records);
                 cache := set_all maxSize entries (cache w) |};
     requests := [] |}.
Proof.
  induction records as [|data rest IH]; intros messages w Hnd Hcache Hmsgs.
  - cbn. rewrite !app_nil_r. by destruct w.
  - rewrite fmap_cons in Hnd. apply NoDup_cons in Hnd as [Hhead Hnd].
    assert (Collection.get (raw_id data) (cache w) = None) as Hget.
    { apply get_None_keys, Hcache, elem_of_cons. by left. }
    cbn [for_of]. unfold mbind, M_bind.
    rewrite (add_fresh _ _ _ _ w Hget). cbn -[for_of zip set_all seq].
    rewrite IH; [| done | |].
    + cbn -[set]. rewrite length_app. cbn [length].
      rewrite Nat.add_1_r, <- !app_assoc.
      rewrite set_fresh by (apply Hmsgs, elem_of_cons; by left).
      by rewrite <- app_assoc.
    + intros other Hin Hkey. cbn [cache] in Hkey.
      apply keys_set_subset in Hkey as [Heq|Hold].
      * apply Hhead. rewrite <- Heq. by apply list_elem_of_fmap_2.
      * by apply (Hcache other); [apply elem_of_cons; right|].
    + intros other Hin. rewrite keys_Collection_set. intros [Heq|Hold].
      * apply Hhead. rewrite <- Heq. by apply list_elem_of_fmap_2.
      * by apply (Hmsgs other); [apply elem_of_cons; right|].
Qed.

(** X12. A batch of new records acts on the cache as one [set] per record:
    when the records of the response have distinct identifiers and none is
    cached, a batch fetch builds one new message per record, in response
    order, returns them keyed by identifier in that order, and leaves the
    cache that the calls [set(id_1, m_1) ... set(id_n, m_n)] produce. *)
Theorem batch_fetch_of_new_records api (message : Value) (overwrite : option bool)
    (records : list (@RawMessage Payload)) w :
  typeof message <> "string" ->
  api (GetMessages (channel_id channel) (default_options message)) = inr records ->
  NoDup (raw_id <$> records) ->
  (forall data, data ∈ records -> raw_id data ∉ Collection.keys (cache w)) ->
  let entries := zip (raw_id <$> records) (seq (length (heap w)) (length records)) in
  let r := fetch construct patch maxSize channel api message overwrite w in
  outcome r = Fulfilled (Messages entries) /\
  heap (world r) = heap w ++ ((fun data => Message_new construct data channel)
                               <$> records) /\
  cache (world r) = set_all maxSize entries (cache w).
Proof.
  intros Hty Hreply Hnd Hcache entries r. subst r entries.
  rewrite (fetch_batch_run api message overwrite records w Hty Hreply).
  rewrite for_of_fresh; [done | done | done |].
  intros data _. apply not_elem_of_nil.
Qed.

(** X13. A long batch into a small cache: fetching [n] new records with
    distinct identifiers into an empty cache of capacity [N > 0] leaves
    exactly the last [min n N] of them cached, in response order. *)
Theorem batch_fetch_keeps_newest api (message : Value) (overwrite : option bool)
    (records : list (@RawMessage Payload)) w :
  typeof message <> "string" ->
  api (GetMessages (channel_id channel) (default_options message)) = inr records ->
  NoDup (raw_id <$> records) ->
  cache w = [] ->
  0 < maxSize ->
  let r := fetch construct patch maxSize channel api message overwrite w in
  Collection.keys (cache (world r))
  = drop (length records - Z.to_nat maxSize) (raw_id <$> records).
Proof.
  intros Hty Hreply Hnd Hempty Hpos r. subst r.
  rewrite (fetch_batch_run api message overwrite records w Hty Hreply).
  rewrite for_of_fresh; [| done | | ].
  - cbn [world cache]. rewrite Hempty.
    assert (Collection.keys
              (zip (raw_id <$> records) (seq (length (heap w)) (length records)))
            = raw_id <$> records) as Hkeys.
    { unfold Collection.keys. apply fst_zip. by rewrite length_fmap, length_seq. }
    rewrite set_all_distinct; [| done | by rewrite app_nil_l, Hkeys |].
    + rewrite !app_nil_l. unfold Collection.keys, ref in *.
      rewrite fmap_drop, Hkeys.
      by rewrite length_zip, length_fmap, length_seq, Nat.min_id.
    + unfold Collection.size. simpl. lia.
  - intros data _. rewrite Hempty. apply not_elem_of_nil.
  - intros data _. apply not_elem_of_nil.
Qed.

(** X14. A single fetch into a full cache: fetching an identifier that is
    not cached while the cache is at capacity evicts the oldest message and
    appends the new one. *)
Theorem fetch_into_full_cache api (messageID : Snowflake) (overwrite : option bool)
    data w (oldest : Snowflake) (m0 : ref) (rest : Collection.t ref) :
  api (GetMessage (channel_id channel) messageID) = inr data ->
  raw_id data = messageID ->
  cache w = (oldest, m0) :: rest ->
  NoDup (Collection.keys (cache w)) ->
  messageID ∉ Collection.keys (cache w) ->
  0 < maxSize ->
  maxSize <= Collection.size (cache w) ->
  let r := fetch construct patch maxSize channel api (VString messageID) overwrite w in
  outcome r = Fulfilled (OneMessage (length (heap w))) /\
  cache (world r) = rest ++ [(messageID, length (heap w))] /\
  Collection.get oldest (cache (world r)) = None.
Proof.
  intros Hreply Hid Hcache Hnd Hnew Hpos Hfull r. subst r.
  destruct (fetch_single_run api messageID overwrite data w Hreply)
    as (w1 & Hc & Hlen & ->). cbn [outcome world].
  assert (Collection.get (raw_id data) (cache w1) = None) as Hget.
  { rewrite Hc, Hid. by apply get_None_keys. }
  rewrite (add_fresh _ _ _ _ w1 Hget). cbn. rewrite Hlen, Hc, Hid.
  rewrite Hcache in *.
  assert (messageID <> oldest /\ messageID ∉ Collection.keys rest) as [Hne Hrest].
  { change (messageID ∉ oldest :: Collection.keys rest) in Hnew.
    by apply not_elem_of_cons in Hnew. }
  rewrite set_full by done. rewrite delete_firstKey_NoDup by done.
  rewrite set_fresh by done. split; [done|]. split; [done|].
  apply get_None_keys. rewrite keys_app. intros [Hin|Hin]%elem_of_app.
  - change (NoDup (oldest :: Collection.keys rest)) in Hnd.
    by apply NoDup_cons in Hnd as [? _].
  - cbn in Hin. apply list_elem_of_singleton in Hin. congruence.
Qed.

End StoreBehaviour.

(** ** Worked instances of the further properties *)

Ltac by_computation := apply (bool_decide_unpack _); vm_compute; exact I.

Lemma set_then_get_witness :
  Collection.get "c" (set 2 "c" 3%nat [("a", 1%nat); ("b", 2%nat)]) = Some 3%nat.
Proof. apply (set_then_get 2 "c" 3%nat [("a", 1%nat); ("b", 2%nat)]). lia. Defined.

Lemma set_leaves_others_witness :
  Collection.get "b" (set 2 "c" 3%nat [("a", 1%nat); ("b", 2%nat)])
  = Collection.get "b" [("a", 1%nat); ("b", 2%nat)].
Proof.
  apply (set_leaves_others 2 "c" 3%nat "b" [("a", 1%nat); ("b", 2%nat)]).
  - by_computation.
  - by_computation.
Defined.

(** A cache of three entries whose maximum has been lowered to 1. *)
Lemma set_changes_size_by_one_witness :
  let self := [("a", 1%nat); ("b", 2%nat); ("c", 3%nat)] in
  let final := set 1 "d" 4%nat self in
  Collection.size self - 1 <= Collection.size final <= Collection.size self + 1 /\
  (1 + 1 < Collection.size self -> 1 < Collection.size final).
Proof.
  apply (set_changes_size_by_one 1 "d" 4%nat
           [("a", 1%nat); ("b", 2%nat); ("c", 3%nat)]).
  by_computation.
Defined.

Lemma set_at_capacity_witness :
  let final := set 2 "b" 20%nat [("a", 1%nat); ("b", 2%nat)] in
  final = Collection.set "b" 20%nat [("b", 2%nat)] /\
  ("b" <> "a" -> Collection.get "a" final = None) /\
  ("b" = "a" -> final = [("b", 2%nat)] ++ [("b", 20%nat)]).
Proof.
  apply (set_at_capacity 2 "b" 20%nat "a" 1%nat [("b", 2%nat)]).
  - by_computation.
  - lia.
  - vm_compute. discriminate.
Defined.

Lemma set_all_keeps_newest_witness :
  let calls := [("k1", 1%nat); ("k2", 2%nat); ("k3", 3%nat)] in
  let final := set_all 2 calls Collection.empty in
  final = drop (length calls - Z.to_nat 2) calls /\
  Collection.size final = Z.min (Z.of_nat (length calls)) 2.
Proof.
  apply (set_all_keeps_newest 2 [("k1", 1%nat); ("k2", 2%nat); ("k3", 3%nat)]).
  - lia.
  - by_computation.
Defined.

Lemma set_unbounded_keeps_all_witness :
  "a" ∈ Collection.keys (set_all (-1) [("b", 2%nat); ("c", 3%nat)] [("a", 1%nat)]) <->
  "a" ∈ Collection.keys [("a", 1%nat)] \/ "a" ∈ [("b", 2%nat); ("c", 3%nat)].*1.
Proof.
  apply (set_unbounded_keeps_all (-1) [("b", 2%nat); ("c", 3%nat)] [("a", 1%nat)] "a").
  lia.
Defined.

Lemma capacity_invariant_of_store_witness :
  Collection.size
    (cache (replay Demo.construct Demo.patch 2 Demo.general
              [(Demo.api, CallFetch VUndefined None);
               (Demo.api, CallFetch (VString "A") (Some true));
               (Demo.api, CallFetchPinned);
               (Demo.api, CallSet "x" 0%nat)]
              (empty_store [])))
  <= 2.
Proof.
  apply (capacity_invariant_of_store Demo.construct Demo.patch 2 Demo.general
           [(Demo.api, CallFetch VUndefined None);
            (Demo.api, CallFetch (VString "A") (Some true));
            (Demo.api, CallFetchPinned);
            (Demo.api, CallSet "x" 0%nat)] []).
  lia.
Defined.

(** Capacity 1 holding ["A"]: fetching ["B"] evicts ["A"], and ["B"] is
    found. *)
Lemma fetch_then_get_witness :
  let r := fetch Demo.construct Demo.patch 1 Demo.general Demo.api
             (VString "B") None Demo.holding_A in
  exists m, outcome r = Fulfilled (OneMessage m) /\
            Collection.get "B" (cache (world r)) = Some m.
Proof.
  apply (fetch_then_get Demo.construct Demo.patch 1 Demo.general Demo.api
           "B" None (Demo.record "B" "fresh") Demo.holding_A).
  - lia.
  - reflexivity.
  - reflexivity.
Defined.

Lemma fetch_overwrite_needs_cached_witness :
  fetch Demo.construct Demo.patch 2 Demo.general Demo.api (VString "B")
    (Some true) Demo.holding_A =
  fetch Demo.construct Demo.patch 2 Demo.general Demo.api (VString "B")
    None Demo.holding_A.
Proof.
  apply (fetch_overwrite_needs_cached Demo.construct Demo.patch 2 Demo.general
           Demo.api "B" (Some true) None Demo.holding_A).
  reflexivity.
Defined.

Lemma fetchPinned_accumulates_like_fetch_witness :
  let pinned := run_fetch Demo.construct Demo.patch 2 Demo.general Demo.pins_api
                  FetchPinned Demo.holding_A in
  let batch := fetch Demo.construct Demo.patch 2 Demo.general Demo.pins_api
                 VUndefined None Demo.holding_A in
  outcome pinned = outcome batch /\ world pinned = world batch.
Proof.
  apply (fetchPinned_accumulates_like_fetch Demo.construct Demo.patch 2
           Demo.general Demo.pins_api VUndefined None
           [Demo.record "m3" "c"; Demo.record "m2" "b"; Demo.record "m1" "a"]
           Demo.holding_A).
  - discriminate.
  - reflexivity.
  - reflexivity.
Defined.

Lemma batch_fetch_of_new_records_witness :
  let records := [Demo.record "m3" "c"; Demo.record "m2" "b"; Demo.record "m1" "a"] in
  let entries := zip (raw_id <$> records)
                   (seq (length (heap Demo.holding_A)) (length records)) in
  let r := fetch Demo.construct Demo.patch 2 Demo.general Demo.api
             VUndefined None Demo.holding_A in
  outcome r = Fulfilled (Messages entries) /\
  heap (world r) = heap Demo.holding_A
                   ++ ((fun data => Message_new Demo.construct data Demo.general)
                         <$> records) /\
  cache (world r) = set_all 2 entries (cache Demo.holding_A).
Proof.
  apply (batch_fetch_of_new_records Demo.construct Demo.patch 2 Demo.general
           Demo.api VUndefined None
           [Demo.record "m3" "c"; Demo.record "m2" "b"; Demo.record "m1" "a"]
           Demo.holding_A).
  - discriminate.
  - reflexivity.
  - by_computation.
  - apply Forall_forall. by_computation.
Defined.

Lemma batch_fetch_keeps_newest_witness :
  let records := [Demo.record "m3" "c"; Demo.record "m2" "b"; Demo.record "m1" "a"] in
  let r := fetch Demo.construct Demo.patch 2 Demo.general Demo.api
             VUndefined None (empty_store []) in
  Collection.keys (cache (world r))
  = drop (length records - Z.to_nat 2) (raw_id <$> records).
Proof.
  apply (batch_fetch_keeps_newest Demo.construct Demo.patch 2 Demo.general
           Demo.api VUndefined None
           [Demo.record "m3" "c"; Demo.record "m2" "b"; Demo.record "m1" "a"]
           (empty_store [])).
  - discriminate.
  - reflexivity.
  - by_computation.
  - reflexivity.
  - lia.
Defined.

Lemma fetch_into_full_cache_witness :
  let r := fetch Demo.construct Demo.patch 1 Demo.general Demo.api
             (VString "B") None Demo.holding_A in
  outcome r = Fulfilled (OneMessage (length (heap Demo.holding_A))) /\
  cache (world r) = [] ++ [("B", length (heap Demo.holding_A))] /\
  Collection.get "A" (cache (world r)) = None.
Proof.
  apply (fetch_into_full_cache Demo.construct Demo.patch 1 Demo.general Demo.api
           "B" None (Demo.record "B" "fresh") Demo.holding_A "A" 0%nat []).
  - reflexivity.
  - reflexivity.
  - reflexivity.
  - by_computation.
  - by_computation.
  - lia.
  - vm_compute. discriminate.
Defined.

(** * Batch order preservation *)

(** ** The key-level account *)
Section KeysAfter.
Implicit Types (keys ids : list Snowflake) (id : Snowflake).

Lemma filter_agree (P Q : Snowflake -> Prop)
    `{!forall x, Decision (P x)} `{!forall x, Decision (Q x)} ids :
  (forall id, id ∈ ids -> (P id <-> Q id)) -> filter P ids = filter Q ids.
Proof.
  induction ids as [|id ids IH]; intros Hagree; [done|].
  rewrite !filter_cons.
  assert (P id <-> Q id) as Hid by (apply Hagree, elem_of_cons; by left).
  rewrite IH by (intros x Hx; apply Hagree, elem_of_cons; by right).
  destruct (decide (P id)), (decide (Q id)); tauto.
Qed.

Lemma elem_of_drop {A} (x : A) (l : list A) (i : nat) : x ∈ drop i l -> x ∈ l.
Proof. intros Hin. apply (elem_of_sublist _ _ _ Hin), sublist_drop. Qed.

Lemma elem_of_drop_le {A} (x : A) (l : list A) (i j : nat) :
  (i <= j)%nat -> x ∈ drop j l -> x ∈ drop i l.
Proof.
  intros Hle Hin. replace j with (i + (j - i))%nat in Hin by lia.
  rewrite <- drop_drop in Hin.
  by apply elem_of_drop in Hin.
Qed.

(** When the entries that make room for the new identifiers hold none of the
    response's own identifiers, the batch drops that many oldest keys at
    most and appends the new identifiers in response order. *)
Lemma keys_after_protected maxSize ids :
  forall keys,
  0 < maxSize ->
  NoDup keys -> NoDup ids ->
  let uncached := filter (fun id => id ∉ keys) ids in
  let evicted := Z.to_nat (Z.of_nat (length keys) + Z.of_nat (length uncached) - maxSize) in
  Z.of_nat (length uncached) <= maxSize ->
  (forall id, id ∈ ids -> id ∈ keys -> id ∈ drop evicted keys) ->
  exists e, (e <= evicted)%nat /\ (e <= length keys)%nat /\
            spec_keys_after maxSize keys ids = drop e keys ++ uncached.
Proof.
  intros keys Hpos. revert keys.
  induction ids as [|id ids IH]; intros keys Hkeys Hids uncached evicted Hfew Hsafe.
  { exists 0%nat. cbn. rewrite app_nil_r. split; [lia|]. split; [lia|done]. }
  apply NoDup_cons in Hids as [Hid Hids].
  cbn [spec_keys_after foldl]. unfold spec_add_key at 2.
  destruct (decide (id ∈ keys)) as [Hin|Hnew].
  - assert (uncached = filter (fun id => id ∉ keys) ids) as Hu.
    { subst uncached. by rewrite filter_cons_False by tauto. }
    destruct (IH keys Hkeys Hids) as (e & He & Hek & Hrun).
    + by rewrite <- Hu.
    + rewrite <- Hu. intros x Hx. apply Hsafe, elem_of_cons. by right.
    + exists e. rewrite <- Hu in He, Hrun. done.
  - assert (uncached = id :: filter (fun id => id ∉ keys) ids) as Hu.
    { subst uncached. by rewrite filter_cons_True. }
    assert (length uncached = S (length (filter (fun id => id ∉ keys) ids))) as Hlen
      by (by rewrite Hu).
    rewrite bool_decide_eq_false_2 by lia.
    rewrite (bool_decide_eq_true_2 (maxSize > 0)) by lia. rewrite andb_true_r.
    destruct (bool_decide (Z.of_nat (length keys) >= maxSize)) eqn:Hfull.
    + apply bool_decide_eq_true_1 in Hfull.
      assert (1 <= evicted)%nat as Hev by (subst evicted; lia).
      assert (forall x, x ∈ ids -> (x ∉ drop 1 keys ++ [id] <-> x ∉ keys)) as Hsame.
      { intros x Hx. rewrite elem_of_app, list_elem_of_singleton.
        assert (x <> id) by (intros ->; done).
        split.
        - intros Hnot Hxk. apply Hnot. left.
          apply (elem_of_drop_le _ _ 1 evicted); [done|].
          apply Hsafe; [apply elem_of_cons; by right | done].
        - intros Hnot [Hd|?]; [|done]. apply Hnot.
          by apply elem_of_drop in Hd. }
      pose proof (filter_agree _ _ ids Hsame) as Hfilter.
      assert (length (drop 1 keys ++ [id]) = length keys) as Hsize.
      { rewrite length_app, length_drop. cbn. lia. }
      destruct (IH (drop 1 keys ++ [id])) as (e & He & Hek & Hrun).
      * apply NoDup_app. split; [|split].
        -- apply (sublist_NoDup _ keys Hkeys), sublist_drop.
        -- intros x Hx ->%list_elem_of_singleton. apply Hnew.
           by apply elem_of_drop in Hx.
        -- apply NoDup_singleton.
      * done.
      * rewrite Hfilter. lia.
      * rewrite Hfilter, Hsize. intros x Hx Hxk.
        apply elem_of_app in Hxk as [Hxk|Hxk];
          [|apply list_elem_of_singleton in Hxk; subst x; done].
        assert (x ∈ drop evicted keys) as Hxe.
        { apply Hsafe; [apply elem_of_cons; by right|].
          by apply elem_of_drop in Hxk. }
        rewrite drop_app_le by (rewrite length_drop; lia).
        apply elem_of_app. left. rewrite drop_drop.
        replace (1 + Z.to_nat (Z.of_nat (length keys)
                   + Z.of_nat (length (filter (fun id0 => id0 ∉ keys) ids)) - maxSize))%nat
          with evicted by (subst evicted; lia).
        done.
      * rewrite Hfilter, Hsize in He.
        exists (S e). split; [subst evicted; lia|]. split; [lia|].
        change (foldl (spec_add_key maxSize) (drop 1 keys ++ [id]) ids)
          with (spec_keys_after maxSize (drop 1 keys ++ [id]) ids).
        rewrite Hrun, Hfilter, Hu.
        rewrite drop_app_le by (rewrite length_drop; lia).
        rewrite drop_drop, <- app_assoc. done.
    + apply bool_decide_eq_false_1 in Hfull.
      assert (forall x, x ∈ ids -> (x ∉ keys ++ [id] <-> x ∉ keys)) as Hsame.
      { intros x Hx. rewrite elem_of_app, list_elem_of_singleton.
        assert (x <> id) by (intros ->; done). tauto. }
      pose proof (filter_agree _ _ ids Hsame) as Hfilter.
      destruct (IH (keys ++ [id])) as (e & He & Hek & Hrun).
      * apply NoDup_app. split; [done|]. split; [|apply NoDup_singleton].
        by intros x Hx ->%list_elem_of_singleton.
      * done.
      * rewrite Hfilter. lia.
      * rewrite Hfilter, length_app. cbn [length]. intros x Hx Hxk.
        apply elem_of_app in Hxk as [Hxk|Hxk];
          [|apply list_elem_of_singleton in Hxk; subst x; done].
        assert (x ∈ drop evicted keys) as Hxe
          by (apply Hsafe; [apply elem_of_cons; by right | done]).
        rewrite drop_app_le by lia. apply elem_of_app. left.
        replace (Z.to_nat (Z.of_nat (length keys + 1)
                   + Z.of_nat (length (filter (fun id0 => id0 ∉ keys) ids)) - maxSize))
          with evicted by (subst evicted; lia).
        done.
      * rewrite Hfilter in He. rewrite length_app in He, Hek.
        cbn [length] in He, Hek.
        exists e. split; [subst evicted; lia|]. split; [subst evicted; lia|].
        change (foldl (spec_add_key maxSize) (keys ++ [id]) ids)
          with (spec_keys_after maxSize (keys ++ [id]) ids).
        rewrite Hrun, Hfilter, Hu.
        rewrite drop_app_le by (subst evicted; lia).
        by rewrite <- app_assoc.
Qed.

End KeysAfter.

(** ** [set] against the key-level account *)
Section SetKeys.
Context {V : Type}.
Implicit Types (self : Collection.t V) (key : Snowflake) (value : V).

Lemma get_delete_eq key self :
  Collection.get key (Collection.delete key self) = None.
Proof.
  induction self as [|[k v] rest IH]; simpl; [done|].
  destruct (decide (k = key)) as [->|Hk]; simpl; [done|].
  by rewrite decide_False.
Qed.

Lemma get_set_inv maxSize key value other (found : V) self :
  Collection.get other (set maxSize key value self) = Some found ->
  (other = key /\ found = value /\ maxSize <> 0) \/
  Collection.get other self = Some found.
Proof.
  unfold set. destruct (bool_decide (maxSize = 0)) eqn:Hmax; [by right|].
  apply bool_decide_eq_false_1 in Hmax.
  destruct (decide (other = key)) as [->|Hne].
  - rewrite get_set_eq. intros [= <-]. by left.
  - rewrite get_set_ne by done. destruct (_ && _); [|by right].
    unfold delete_firstKey. destruct (Collection.firstKey self) as [k|]; [|by right].
    destruct (decide (k = other)) as [->|Hk].
    + by rewrite get_delete_eq.
    + rewrite get_delete_ne by done. by right.
Qed.

Lemma keys_drop_1 self :
  NoDup (Collection.keys self) ->
  Collection.keys (delete_firstKey self) = drop 1 (Collection.keys self).
Proof.
  destruct self as [|[k v] rest]; [done|]. intros Hnd.
  by rewrite delete_firstKey_NoDup.
Qed.

Lemma keys_set_new maxSize key value self :
  NoDup (Collection.keys self) ->
  key ∉ Collection.keys self ->
  Collection.keys (set maxSize key value self)
  = spec_add_key maxSize (Collection.keys self) key.
Proof.
  intros Hnd Hnew. unfold set, spec_add_key. rewrite decide_False by done.
  destruct (bool_decide (maxSize = 0)); [done|].
  assert (Z.of_nat (length (Collection.keys self)) = Collection.size self) as ->.
  { unfold Collection.size, Collection.keys. by rewrite length_fmap. }
  destruct (_ && _).
  - rewrite set_fresh, keys_app, keys_drop_1; [done | done |].
    rewrite keys_drop_1 by done. intros Hin. by apply elem_of_drop in Hin.
  - by rewrite set_fresh, keys_app.
Qed.

Lemma NoDup_set maxSize key value self :
  NoDup (Collection.keys self) ->
  NoDup (Collection.keys (set maxSize key value self)).
Proof.
  intros Hnd. unfold set. destruct (bool_decide (maxSize = 0)); [done|].
  destruct (_ && _); apply NoDup_Collection_set; [|done].
  rewrite keys_drop_1 by done.
  apply (sublist_NoDup _ _ Hnd), sublist_drop.
Qed.

End SetKeys.

(** ** The accumulation loop *)
Section BatchOrder.
Context {Payload Content Error : Type}.
Variable construct : Channel -> @RawMessage Payload -> Content.
Variable patch : Content -> @RawMessage Payload -> Content.
Variable maxSize : Z.
Variable channel : Channel.
Implicit Types (w : @World Content) (data : @RawMessage Payload)
  (api : @Api Payload Error).

(** The keys of the cache after the loop are those of the key-level
    account. *)
Lemma for_of_keys (records : list (@RawMessage Payload)) :
  forall (messages : Collection.t ref) w,
  NoDup (Collection.keys (cache w)) ->
  Collection.keys
    (cache (world (for_of (Error:=Error) construct maxSize channel records
                     messages w)))
  = spec_keys_after maxSize (Collection.keys (cache w)) (raw_id <$> records).
Proof.
  induction records as [|data rest IH]; intros messages w Hnd; [done|].
  cbn [for_of]. unfold mbind, M_bind. rewrite fmap_cons.
  cbn [spec_keys_after foldl].
  destruct (Collection.get (raw_id data) (cache w)) as [existing|] eqn:Hget.
  - rewrite (add_cached _ _ _ _ None w existing Hget). cbn -[for_of].
    rewrite IH by done. unfold spec_add_key. rewrite decide_True; [done|].
    apply get_Some_keys. by rewrite Hget.
  - rewrite (add_fresh _ _ _ _ w Hget). cbn -[for_of].
    apply get_None_keys in Hget.
    rewrite IH by (by apply NoDup_set). cbn [cache].
    by rewrite keys_set_new.
Qed.

(** What the loop returns and where the entries of the cache come from: an
    entry of the cache afterwards was there before or belongs to a record of
    the response, and then it is the object the collection holds. *)
Lemma for_of_shared (records : list (@RawMessage Payload)) :
  forall (messages : Collection.t ref) w,
  NoDup (raw_id <$> records) ->
  (forall data, data ∈ records -> raw_id data ∉ Collection.keys messages) ->
  exists found w',
    for_of (Error:=Error) construct maxSize channel records messages w =
      {| outcome := Fulfilled found; world := w'; requests := [] |} /\
    (forall key m, Collection.get key messages = Some m ->
                   Collection.get key found = Some m) /\
    (forall key m, Collection.get key (cache w') = Some m ->
                   Collection.get key (cache w) = Some m \/
                   key ∈ raw_id <$> records) /\
    (forall data m, data ∈ records ->
       Collection.get (raw_id data) (cache w') = Some m ->
       Collection.get (raw_id data) found = Some m).
Proof.
  induction records as [|data rest IH]; intros messages w Hnd Hfresh.
  - exists messages, w. cbn. repeat split; try done.
    + intros key m Hm. by left.
    + intros data m Hin. by apply elem_of_nil in Hin.
  - rewrite fmap_cons in Hnd. apply NoDup_cons in Hnd as [Hhead Hnd].
    assert (raw_id data ∉ Collection.keys messages) as Hnew
      by (apply Hfresh, elem_of_cons; by left).
    assert (forall m other, other ∈ rest ->
              raw_id other ∉ Collection.keys (Collection.set (raw_id data) m messages))
      as Hfresh'.
    { intros m other Hin. rewrite keys_Collection_set. intros [Heq|Hold].
      - apply Hhead. rewrite <- Heq. by apply list_elem_of_fmap_2.
      - by apply (Hfresh other); [apply elem_of_cons; right|]. }
    assert (forall m (found : Collection.t ref),
              (forall key m', Collection.get key
                                (Collection.set (raw_id data) m messages) = Some m' ->
                              Collection.get key found = Some m') ->
              forall key m', Collection.get key messages = Some m' ->
                             Collection.get key found = Some m') as Hkept.
    { intros m found Hkeep key m' Hm'. apply Hkeep. rewrite get_set_ne; [done|].
      intros <-. apply get_None_keys in Hnew. congruence. }
    cbn [for_of]. unfold mbind, M_bind.
    destruct (Collection.get (raw_id data) (cache w)) as [existing|] eqn:Hget.
    + rewrite (add_cached _ _ _ _ None w existing Hget). cbn -[for_of].
      destruct (IH (Collection.set (raw_id data) existing messages) w Hnd
                  (Hfresh' existing)) as (found & w' & -> & Hkeep & Hfrom & Hsame).
      exists found, w'. split; [done|]. split; [by apply (Hkept existing)|].
      split.
      * intros key m Hm. destruct (Hfrom key m Hm) as [?|Hin]; [by left|right].
        apply elem_of_cons. by right.
      * intros d m [->|Hin]%elem_of_cons Hm; [|by apply Hsame].
        destruct (Hfrom _ _ Hm) as [Hold|Hin]; [|done].
        rewrite Hget in Hold. injection Hold as <-. apply Hkeep, get_set_eq.
    + rewrite (add_fresh _ _ _ _ w Hget). cbn -[for_of].
      match goal with |- context [for_of _ _ _ _ ?msgs ?w1] =>
        destruct (IH msgs w1 Hnd (Hfresh' _))
          as (found & w' & -> & Hkeep & Hfrom & Hsame) end.
      cbn [cache] in Hfrom.
      exists found, w'. split; [done|].
      split; [by apply (Hkept (length (heap w)))|]. split.
      * intros key m Hm.
        destruct (Hfrom key m Hm) as [Hset|Hin];
          [|right; apply elem_of_cons; by right].
        apply get_set_inv in Hset as [(-> & _ & _)|Hold]; [|by left].
        right. apply elem_of_cons. by left.
      * intros d m [->|Hin]%elem_of_cons Hm; [|by apply Hsame].
        destruct (Hfrom _ _ Hm) as [Hset|Hin]; [|done].
        apply get_set_inv in Hset as [(_ & -> & _)|Hold]; [|congruence].
        apply Hkeep, get_set_eq.
Qed.


(** C5 (amended). Batch order preservation.  When the response of a batch
    fetch (query options or nothing, or the pinned messages) lists records
    with pairwise distinct identifiers, the returned collection is keyed by
    identifier and iterates in exactly the response order, and the records
    reach the cache in the order received: the keys of the cache afterwards
    are those obtained from the keys before by taking the identifiers one by
    one in response order, leaving the keys as they are when the identifier
    is among them already or the maximum is 0, and otherwise appending it
    after dropping the oldest key of a full cache.  A record is in the cache
    afterwards exactly when its identifier is among these keys, and then as
    the very object the collection holds.  In particular every record is in
    the cache afterwards when the maximum is negative, and when the maximum
    is positive, at most that many records are not cached beforehand, and no
    record cached beforehand is among the oldest
    (size + number of uncached records - maximum) entries, which are the ones
    that making room can evict. *)
Theorem batch_fetch_preserves_order api (records : list (@RawMessage Payload)) w :
  NoDup (raw_id <$> records) ->
  NoDup (Collection.keys (cache w)) ->
  let ids := raw_id <$> records in
  let uncached := filter (fun id => id ∉ Collection.keys (cache w)) ids in
  let evicted :=
    Z.to_nat (Collection.size (cache w) + Z.of_nat (length uncached) - maxSize) in
  let accumulated (r : @Run Content Error Fetched) :=
    exists found,
      outcome r = Fulfilled (Messages found) /\
      Collection.keys found = ids /\
      Collection.keys (cache (world r))
        = spec_keys_after maxSize (Collection.keys (cache w)) ids /\
      (forall data m, data ∈ records ->
         Collection.get (raw_id data) (cache (world r)) = Some m ->
         Collection.get (raw_id data) found = Some m) /\
      (maxSize < 0 \/
       (0 < maxSize /\ Z.of_nat (length uncached) <= maxSize /\
        forall data, data ∈ records ->
          raw_id data ∈ Collection.keys (cache w) ->
          raw_id data ∈ drop evicted (Collection.keys (cache w))) ->
       forall data, data ∈ records ->
         exists m, Collection.get (raw_id data) found = Some m /\
                   Collection.get (raw_id data) (cache (world r)) = Some m) in
  (forall message overwrite,
     typeof message <> "string" ->
     api (GetMessages (channel_id channel) (default_options message)) = inr records ->
     accumulated (fetch construct patch maxSize channel api message overwrite w)) /\
  (api (GetPins (channel_id channel)) = inr records ->
   accumulated (run_fetch construct patch maxSize channel api FetchPinned w)).
Proof.
  intros Hnd Hcache ids uncached evicted accumulated.
  destruct (for_of_shared records Collection.empty w Hnd)
    as (found & w' & Hrun & _ & _ & Hsame).
  { intros data _. apply not_elem_of_nil. }
  destruct (for_of_spec (Error:=Error) construct maxSize channel records
              Collection.empty w Hnd)
    as (found2 & w2 & Hrun2 & Hkeys & _ & Hroom).
  { intros data _. apply not_elem_of_nil. }
  rewrite Hrun in Hrun2. injection Hrun2 as <- <-.
  pose proof (for_of_keys records Collection.empty w Hcache) as Hafter.
  rewrite Hrun in Hafter. cbn [world] in Hafter.
  assert (accumulated
            {| outcome := Fulfilled (Messages found); world := w';
               requests := [] |}) as Hdone.
  { exists found. cbn [outcome world]. split; [done|]. split; [done|].
    split; [done|]. split; [done|].
    intros [Hneg|(Hpos & Hfew & Hsafe)].
    - destruct Hroom as [_ Hall]; [by left | done].
    - assert (Z.of_nat (length (Collection.keys (cache w)))
              = Collection.size (cache w)) as Hsize.
      { unfold Collection.size, Collection.keys. by rewrite length_fmap. }
      destruct (keys_after_protected maxSize ids (Collection.keys (cache w))
                  Hpos Hcache Hnd) as (e & He & _ & Hrest).
      { done. }
      { rewrite Hsize. intros id [data [-> Hin]]%list_elem_of_fmap_1.
        by apply Hsafe. }
      rewrite Hsize in He.
      intros data Hin.
      assert (raw_id data ∈ Collection.keys (cache w')) as Hthere.
      { rewrite Hafter. change (raw_id <$> records) with ids.
        rewrite Hrest, elem_of_app.
        destruct (decide (raw_id data ∈ Collection.keys (cache w))) as [Hold|Hnew].
        - left. apply (elem_of_drop_le _ _ e evicted); [done|]. by apply Hsafe.
        - right. apply list_elem_of_filter. split; [done|].
          by apply list_elem_of_fmap_2. }
      apply get_Some_keys in Hthere as [m Hm].
      exists m. split; [by apply Hsame | done]. }
  destruct Hdone as (found' & Hout & Hk & Hw & Hshared & Hcached).
  split.
  - intros message overwrite Hty Hreply.
    assert (fetch construct patch maxSize channel api message overwrite
            = Messages <$> _fetchMany construct maxSize channel api message) as ->.
    { destruct message; try done. }
    unfold _fetchMany. rewrite fmap_run, (await_then api (GetMessages _ _)), Hreply.
    rewrite Hrun. by exists found'.
  - intros Hreply. cbn [run_fetch]. unfold fetchPinned.
    rewrite fmap_run, (await_then api (GetPins _)), Hreply.
    rewrite Hrun. by exists found'.
Qed.

End BatchOrder.

(** ** Worked instances of the batch *)

(** The steady state of a bounded cache: a full cache of capacity 3 receives
    three new records; the three oldest entries make room and all three
    records are cached, as the objects of the collection. *)
Lemma batch_fetch_preserves_order_witness :
  let records := [Demo.record "m3" "c"; Demo.record "m2" "b"; Demo.record "m1" "a"] in
  let r := fetch Demo.construct Demo.patch 3 Demo.general Demo.api
             (VOptions {| limit := Some 3; before := None; after := None;
                          around := None |}) None Demo.full_xyz in
  exists found,
    outcome r = Fulfilled (Messages found) /\
    Collection.keys found = ["m3"; "m2"; "m1"] /\
    Collection.keys (cache (world r))
      = spec_keys_after 3 ["x"; "y"; "z"] ["m3"; "m2"; "m1"] /\
    forall data, data ∈ records ->
      exists m, Collection.get (raw_id data) found = Some m /\
                Collection.get (raw_id data) (cache (world r)) = Some m.
Proof.
  intros records r.
  destruct (proj1 (batch_fetch_preserves_order Demo.construct Demo.patch 3
                     Demo.general Demo.api records Demo.full_xyz
                     ltac:(by_computation) ltac:(by_computation))
              (VOptions {| limit := Some 3; before := None; after := None;
                           around := None |}) None
              ltac:(discriminate) eq_refl)
    as (found & Hout & Hkeys & Hafter & _ & Hcached).
  exists found. split; [exact Hout|]. split; [exact Hkeys|].
  split; [exact Hafter|].
  apply Hcached. right. split; [lia|]. split; [vm_compute; discriminate|].
  apply (proj1 (Forall_forall
                  (fun data => raw_id data ∈ Collection.keys (cache Demo.full_xyz) ->
                               raw_id data ∈ drop _ (Collection.keys (cache Demo.full_xyz)))
                  records)).
  by_computation.
Defined.

(** C5, as stated, fails in four ways.  With a maximum of 0 a batch fetch
    returns the three records in response order and not one of them is
    inserted into the cache.  With a maximum of 2 the first record has been
    evicted by the time the third is added.  With a maximum of 3 and a full
    cache whose oldest entry is ["m3"], the record ["m3"] is left where it is
    and evicted to make room for ["m2"], though the response is no longer
    than the maximum.  And a response that repeats an identifier gives a
    collection with one entry for it, at its first position. *)
Lemma batch_fetch_not_all_cached :
  let records := [Demo.record "m3" "c"; Demo.record "m2" "b"; Demo.record "m1" "a"] in
  let query := VOptions {| limit := Some 3; before := None; after := None;
                           around := None |} in
  let disabled := fetch Demo.construct Demo.patch 0 Demo.general Demo.api
                    query None (empty_store []) in
  let small := fetch Demo.construct Demo.patch 2 Demo.general Demo.api
                 query None (empty_store []) in
  let stale := fetch Demo.construct Demo.patch 3 Demo.general Demo.api
                 query None Demo.full_m3xy in
  let repeated := fetch Demo.construct Demo.patch 5 Demo.general
                    Demo.repeating_api query None (empty_store []) in
  Demo.api (GetMessages "general" query) = inr records /\
  outcome disabled
    = Fulfilled (Messages [("m3", 0%nat); ("m2", 1%nat); ("m1", 2%nat)]) /\
  cache (world disabled) = [] /\
  (forall data, data ∈ records ->
     Collection.get (raw_id data) (cache (world disabled)) = None) /\
  outcome small
    = Fulfilled (Messages [("m3", 0%nat); ("m2", 1%nat); ("m1", 2%nat)]) /\
  Collection.keys (cache (world small)) = ["m2"; "m1"] /\
  ~ (forall data, data ∈ records ->
       is_Some (Collection.get (raw_id data) (cache (world small)))) /\
  outcome stale
    = Fulfilled (Messages [("m3", 0%nat); ("m2", 3%nat); ("m1", 4%nat)]) /\
  Collection.keys (cache (world stale)) = ["y"; "m2"; "m1"] /\
  ~ (forall data, data ∈ records ->
       is_Some (Collection.get (raw_id data) (cache (world stale)))) /\
  Demo.repeating_api (GetMessages "general" query)
    = inr [Demo.record "a" "1"; Demo.record "b" "2"; Demo.record "a" "3"] /\
  outcome repeated = Fulfilled (Messages [("a", 0%nat); ("b", 1%nat)]) /\
  ~ (exists found, outcome repeated = Fulfilled (Messages found) /\
                   Collection.keys found = ["a"; "b"; "a"]).
Proof.
  cbv zeta. repeat split; try reflexivity.
  - intros Hall. destruct (Hall (Demo.record "m3" "c")) as [m Hm].
    + apply elem_of_cons. by left.
    + vm_compute in Hm. discriminate.
  - intros Hall. destruct (Hall (Demo.record "m3" "c")) as [m Hm].
    + apply elem_of_cons. by left.
    + vm_compute in Hm. discriminate.
  - intros (found & Hout & Hkeys). vm_compute in Hout.
    injection Hout as <-. vm_compute in Hkeys. discriminate.
Qed.
